(** * Maritime narrative pipeline: json_to_claude.py

    A shallow embedding of the five pure stages of [json_to_claude.py]
    (fact classifier, fallback flattener, prompt composer, narrative
    segmenter, response assembler) together with the properties the design
    document states about them.

    Conventions of the embedding:
    - a Python [str] is a [string]; its characters are the 256 code points
      of [ascii], read as Latin-1, so that [str.lower], [str.strip] and
      [str.isspace] below agree with Python on every such string;
    - a parsed JSON document is the inductive type [json]; a Python [dict]
      read from JSON is an association list in insertion order;
    - the list [locations] that the nested function [extract_location_data]
      closes over is one shared object: it is threaded through the model as
      state, and a call that returns that very object is told apart from a
      call that returns a new empty list;
    - an operation that raises in Python returns [Raise] in the monad
      [result]. *)

From Stdlib Require Import Strings.String Strings.Ascii Numbers.DecimalString.
From Stdlib Require Import Lists.List Arith.Arith Arith.PeanoNat NArith.NArith Bool.Bool Lia.
Import ListNotations.

Local Open Scope string_scope.
Local Open Scope list_scope.

(** ** Python strings *)

Module PyStr.

(** [bool(s)] for a string: non-empty. *)
Definition truthy (s : string) : bool :=
  match s with
  | EmptyString => false
  | String _ _ => true
  end.

(** [c.isspace()] on the code points 0..255. *)
Definition isspace (c : ascii) : bool :=
  let n := N_of_ascii c in
  ((9 <=? n) && (n <=? 13) || (28 <=? n) && (n <=? 32)
   || (n =? 133) || (n =? 160))%N.

(** [c.lower()] on the code points 0..255: A-Z and the Latin-1 capitals
    0xC0..0xDE other than the multiplication sign 0xD7. *)
Definition lower_char (c : ascii) : ascii :=
  let n := N_of_ascii c in
  if ((65 <=? n) && (n <=? 90)
      || (192 <=? n) && (n <=? 222) && negb (n =? 215))%N
  then ascii_of_N (n + 32) else c.

(** [s.lower()] *)
Fixpoint lower (s : string) : string :=
  match s with
  | EmptyString => EmptyString
  | String c r => String (lower_char c) (lower r)
  end.

(** [s.lstrip()] *)
Fixpoint lstrip (s : string) : string :=
  match s with
  | EmptyString => EmptyString
  | String c r => if isspace c then lstrip r else s
  end.

(** [s.rstrip()] *)
Fixpoint rstrip (s : string) : string :=
  match s with
  | EmptyString => EmptyString
  | String c r =>
      match rstrip r with
      | EmptyString => if isspace c then EmptyString else String c EmptyString
      | String _ _ as r' => String c r'
      end
  end.

(** [s.strip()] *)
Definition strip (s : string) : string := rstrip (lstrip s).

(** [s.lstrip(ch)] for a one-character argument. *)
Fixpoint lstrip_char (ch : ascii) (s : string) : string :=
  match s with
  | EmptyString => EmptyString
  | String c r => if Ascii.eqb c ch then lstrip_char ch r else s
  end.

(** [s.startswith(p)] *)
Fixpoint startswith (p s : string) : bool :=
  match p, s with
  | EmptyString, _ => true
  | String _ _, EmptyString => false
  | String a p', String b s' => Ascii.eqb a b && startswith p' s'
  end.

(** [sub in s] *)
Fixpoint contains (sub s : string) : bool :=
  startswith sub s
  || match s with
     | EmptyString => false
     | String _ r => contains sub r
     end.

(** [s.endswith(ch)] for a one-character argument. *)
Fixpoint endswith_char (ch : ascii) (s : string) : bool :=
  match s with
  | EmptyString => false
  | String c EmptyString => Ascii.eqb c ch
  | String _ r => endswith_char ch r
  end.

(** [s[n:]] *)
Fixpoint drop (n : nat) (s : string) : string :=
  match n, s with
  | O, _ => s
  | S _, EmptyString => EmptyString
  | S n', String _ r => drop n' r
  end.

(** [s.split(ch)] for a one-character separator; never the empty list. *)
Fixpoint split (ch : ascii) (s : string) : list string :=
  match s with
  | EmptyString => [EmptyString]
  | String c r =>
      if Ascii.eqb c ch then EmptyString :: split ch r
      else match split ch r with
           | h :: t => String c h :: t
           | [] => [String c EmptyString]
           end
  end.

(** [sep.join(xs)] *)
Definition join (sep : string) (xs : list string) : string :=
  String.concat sep xs.

(** [s.replace('**', '')]: occurrences are removed left to right and do
    not overlap. *)
Fixpoint replace_bold (s : string) : string :=
  match s with
  | EmptyString => EmptyString
  | String c r =>
      match r with
      | String c' r' =>
          if Ascii.eqb c "*" && Ascii.eqb c' "*" then replace_bold r'
          else String c (replace_bold r)
      | EmptyString => s
      end
  end.

(** [str(i)] for a non-negative integer. *)
Definition of_nat (i : nat) : string :=
  NilEmpty.string_of_uint (Nat.to_uint i).

(** [xs[a:b]] for [0 <= a <= b]; clipped at the end of the list. *)
Definition slice {A} (xs : list A) (a b : nat) : list A :=
  firstn (b - a) (skipn a xs).

End PyStr.
Import PyStr.

(** ** Data model *)

(** A parsed JSON document.  Numbers carry no information the pipeline
    looks at; they are kept as their source text. *)
#[warnings="-register-all"]
Inductive json : Type :=
| JNull
| JBool (b : bool)
| JNum (literal : string)
| JStr (s : string)
| JList (items : list json)
| JDict (pairs : list (string * json)).

(** [{"name": ..., "weather": [...], "waves": [...]}] *)
Record LocationRecord : Type := mkLocation {
  name : string;
  weather : list string;
  waves : list string
}.

(** [{"locations": [...]}] *)
Record MaritimeDataset : Type := mkDataset {
  locations : list LocationRecord
}.

(** [{"location": ..., "narrative": ...}], with the optional keys
    ["weather"] and ["waves"] the assembler may add. *)
Record NarrativeRecord : Type := mkNarrative {
  location : string;
  narrative : string;
  n_weather : option (list string);
  n_waves : option (list string)
}.

(** The envelope built by [create_response_json]. *)
Record ResponseEnvelope : Type := mkEnvelope {
  narratives : list NarrativeRecord;
  model : string;
  timestamp : string;
  locations_count : nat;
  status : string;
  error : option string
}.

(** Python exceptions the modelled code could raise. *)
Inductive exn : Type :=
| ZeroDivisionError.

(** Outcome of a call that may raise. *)
Inductive result (A : Type) : Type :=
| Ok (a : A)
| Raise (e : exn).
Arguments Ok {A} a.
Arguments Raise {A} e.

Definition bind {A B} (m : result A) (f : A -> result B) : result B :=
  match m with
  | Ok a => f a
  | Raise e => Raise e
  end.

Declare Scope py_scope.
Delimit Scope py_scope with py.
Notation "x <- m ;; k" := (bind m (fun x => k))
  (at level 61, m at next level, right associativity) : py_scope.

(** [a // b] on non-negative integers. *)
Definition floordiv (a b : nat) : result nat :=
  match b with
  | O => Raise ZeroDivisionError
  | S _ => Ok (a / b)
  end.

Definition nonempty {A} (xs : list A) : bool :=
  match xs with
  | [] => false
  | _ :: _ => true
  end.

(** ** Fact classifier: [extract_maritime_data] *)

Definition WAYPOINT_KEYWORDS : list string :=
  ["waypoint"; "buoy"; "destination"; "port"; "harbor"; "location"; "place";
   "name"; "point"].
Definition WEATHER_KEYWORDS : list string :=
  ["weather"; "wind"; "temperature"; "temp"; "pressure"; "humidity";
   "visibility"; "condition"; "forecast"].
Definition WAVE_KEYWORDS : list string :=
  ["wave"; "swell"; "height"; "period"; "direction"; "sea"; "surf"; "tide";
   "current"].

(** [any(keyword in key_lower for keyword in KEYWORDS)] *)
Definition any_keyword (keywords : list string) (key_lower : string) : bool :=
  existsb (fun keyword => contains keyword key_lower) keywords.

(** The three locals of one mapping node of [extract_location_data]. *)
Record node : Type := mkNode {
  location_name : option string;
  weather_data : list string;
  wave_data : list string
}.

Definition empty_node : node := mkNode None [] [].

(** [f"{key}: {value.strip()}"] *)
Definition fact (key value : string) : string :=
  key ++ ": " ++ strip value.

(** The branch for a non-blank string value: waypoint, else weather, else
    wave, else nothing. *)
Definition classify_string (key value : string) (nd : node) : node :=
  let key_lower := lower key in
  if any_keyword WAYPOINT_KEYWORDS key_lower then
    mkNode (Some (strip value)) (weather_data nd) (wave_data nd)
  else if any_keyword WEATHER_KEYWORDS key_lower then
    mkNode (location_name nd) (weather_data nd ++ [fact key value]) (wave_data nd)
  else if any_keyword WAVE_KEYWORDS key_lower then
    mkNode (location_name nd) (weather_data nd) (wave_data nd ++ [fact key value])
  else nd.

(** The loop over [value.items()] of a mapping under a weather or wave key:
    one fact per child that is a non-blank string, named by the child's
    key. *)
Fixpoint sub_facts (sub : list (string * json)) : list string :=
  match sub with
  | [] => []
  | (sub_key, JStr sub_value) :: rest =>
      if truthy (strip sub_value) then fact sub_key sub_value :: sub_facts rest
      else sub_facts rest
  | _ :: rest => sub_facts rest
  end.

(** What a call of [extract_location_data] hands back: the closure's list
    [locations] itself ([return locations]) or a new empty list
    ([return []]). *)
Inductive returned : Type :=
| SharedLocations
| FreshEmpty.

(** [if nested_result: locations.extend(nested_result)].  When the nested
    call returned [locations] itself, the list is extended by its own
    elements. *)
Definition extend_with (nested_result : returned)
    (locs : list LocationRecord) : list LocationRecord :=
  match nested_result with
  | FreshEmpty => locs
  | SharedLocations => if nonempty locs then locs ++ locs else locs
  end.

Definition dict_child_key (parent_key key : string) : string :=
  if truthy parent_key then parent_key ++ "." ++ key else key.
Definition dict_item_key (parent_key key : string) (i : nat) : string :=
  if truthy parent_key then parent_key ++ "." ++ key ++ "[" ++ of_nat i ++ "]"
  else key ++ "[" ++ of_nat i ++ "]".
Definition list_item_key (parent_key : string) (i : nat) : string :=
  if truthy parent_key then parent_key ++ "[" ++ of_nat i ++ "]"
  else "[" ++ of_nat i ++ "]".

(** [if location_name and (weather_data or wave_data)] at the end of a
    mapping node. *)
Definition finish_node (nd : node) (locs : list LocationRecord)
    : returned * list LocationRecord :=
  match location_name nd with
  | Some n =>
      if truthy n && (nonempty (weather_data nd) || nonempty (wave_data nd))
      then (FreshEmpty, locs ++ [mkLocation n (weather_data nd) (wave_data nd)])
      else (SharedLocations, locs)
  | None => (SharedLocations, locs)
  end.

(** [extract_location_data(obj, parent_key)], with the shared list
    [locations] passed in and out. *)
Fixpoint extract_location_data (obj : json) (parent_key : string)
    (locs : list LocationRecord) {struct obj}
    : returned * list LocationRecord :=
  match obj with
  | JDict d =>
      let fix items_loop (d : list (string * json)) (nd : node)
              (locs : list LocationRecord) {struct d}
              : node * list LocationRecord :=
        match d with
        | [] => (nd, locs)
        | (key, value) :: rest =>
            let key_lower := lower key in
            match value with
            | JStr s =>
                if truthy (strip s)
                then items_loop rest (classify_string key s nd) locs
                else items_loop rest nd locs
            | JDict sub =>
                if any_keyword WEATHER_KEYWORDS key_lower then
                  items_loop rest
                    (mkNode (location_name nd)
                            (weather_data nd ++ sub_facts sub) (wave_data nd))
                    locs
                else if any_keyword WAVE_KEYWORDS key_lower then
                  items_loop rest
                    (mkNode (location_name nd) (weather_data nd)
                            (wave_data nd ++ sub_facts sub))
                    locs
                else
                  let '(nested_result, locs1) :=
                    extract_location_data value
                      (dict_child_key parent_key key) locs in
                  items_loop rest nd (extend_with nested_result locs1)
            | JList items =>
                let fix enumerate (items : list json) (i : nat)
                        (locs : list LocationRecord) {struct items}
                        : list LocationRecord :=
                  match items with
                  | [] => locs
                  | item :: more =>
                      let '(nested_result, locs1) :=
                        extract_location_data item
                          (dict_item_key parent_key key i) locs in
                      enumerate more (S i) (extend_with nested_result locs1)
                  end in
                items_loop rest nd (enumerate items 0 locs)
            | _ => items_loop rest nd locs
            end
        end in
      let '(nd, locs1) := items_loop d empty_node locs in
      finish_node nd locs1
  | JList items =>
      let fix enumerate (items : list json) (i : nat)
              (locs : list LocationRecord) {struct items}
              : list LocationRecord :=
        match items with
        | [] => locs
        | item :: more =>
            let '(nested_result, locs1) :=
              extract_location_data item (list_item_key parent_key i) locs in
            enumerate more (S i) (extend_with nested_result locs1)
        end in
      (SharedLocations, enumerate items 0 locs)
  | _ => (SharedLocations, locs)
  end.

(** The two loops of [extract_location_data] as functions of their own,
    for reasoning; the equations below tie them to the definition. *)
Fixpoint enumerate_loop (item_key : nat -> string) (items : list json)
    (i : nat) (locs : list LocationRecord) : list LocationRecord :=
  match items with
  | [] => locs
  | item :: more =>
      let '(nested_result, locs1) :=
        extract_location_data item (item_key i) locs in
      enumerate_loop item_key more (S i) (extend_with nested_result locs1)
  end.

Definition items_step (parent_key key : string) (value : json) (nd : node)
    (locs : list LocationRecord) : node * list LocationRecord :=
  let key_lower := lower key in
  match value with
  | JStr s =>
      if truthy (strip s) then (classify_string key s nd, locs) else (nd, locs)
  | JDict sub =>
      if any_keyword WEATHER_KEYWORDS key_lower then
        (mkNode (location_name nd) (weather_data nd ++ sub_facts sub)
                (wave_data nd), locs)
      else if any_keyword WAVE_KEYWORDS key_lower then
        (mkNode (location_name nd) (weather_data nd)
                (wave_data nd ++ sub_facts sub), locs)
      else
        let '(nested_result, locs1) :=
          extract_location_data value (dict_child_key parent_key key) locs in
        (nd, extend_with nested_result locs1)
  | JList items =>
      (nd, enumerate_loop (dict_item_key parent_key key) items 0 locs)
  | _ => (nd, locs)
  end.

Fixpoint items_loop (parent_key : string) (d : list (string * json))
    (nd : node) (locs : list LocationRecord) : node * list LocationRecord :=
  match d with
  | [] => (nd, locs)
  | (key, value) :: rest =>
      let '(nd1, locs1) := items_step parent_key key value nd locs in
      items_loop parent_key rest nd1 locs1
  end.

(** [locations = []; extract_location_data(data)]: the list after the
    primary pass. *)
Definition primary_locations (data : json) : list LocationRecord :=
  snd (extract_location_data data "" []).

(** ** Fallback flattener: [fallback_extract] *)

(** The three flat lists [waypoints], [weather], [waves] that
    [fallback_extract] appends to. *)
Record flat : Type := mkFlat {
  waypoints : list string;
  flat_weather : list string;
  flat_waves : list string
}.

Definition empty_flat : flat := mkFlat [] [] [].

(** The branch for a non-blank string value; the keywords are looked up in
    the lower-cased dotted path [full_key]. *)
Definition flat_string (parent_key key value : string) (st : flat) : flat :=
  let full_key := dict_child_key parent_key key in
  let key_lower := lower full_key in
  if any_keyword WAYPOINT_KEYWORDS key_lower then
    mkFlat (waypoints st ++ [strip value]) (flat_weather st) (flat_waves st)
  else if any_keyword WEATHER_KEYWORDS key_lower then
    mkFlat (waypoints st) (flat_weather st ++ [fact key value]) (flat_waves st)
  else if any_keyword WAVE_KEYWORDS key_lower then
    mkFlat (waypoints st) (flat_weather st) (flat_waves st ++ [fact key value])
  else st.

Fixpoint fallback_extract (obj : json) (parent_key : string) (st : flat)
    {struct obj} : flat :=
  match obj with
  | JDict d =>
      let fix items_loop (d : list (string * json)) (st : flat) {struct d}
              : flat :=
        match d with
        | [] => st
        | (key, value) :: rest =>
            match value with
            | JStr s =>
                if truthy (strip s)
                then items_loop rest (flat_string parent_key key s st)
                else items_loop rest
                       (fallback_extract value
                          (dict_child_key parent_key key) st)
            | _ =>
                items_loop rest
                  (fallback_extract value (dict_child_key parent_key key) st)
            end
        end in
      items_loop d st
  | JList items =>
      let fix enumerate (items : list json) (i : nat) (st : flat)
              {struct items} : flat :=
        match items with
        | [] => st
        | item :: more =>
            enumerate more (S i)
              (fallback_extract item (list_item_key parent_key i) st)
        end in
      enumerate items 0 st
  | _ => st
  end.

(** [if not locations:], the test that guards the fallback. *)
Definition takes_fallback (data : json) : bool :=
  negb (nonempty (primary_locations data)).

(** [extract_maritime_data(data)] *)
Definition extract_maritime_data (data : json) : MaritimeDataset :=
  let locs := primary_locations data in
  if negb (nonempty locs) then
    let st := fallback_extract data "" empty_flat in
    mkDataset
      (locs ++ map (fun waypoint =>
                      mkLocation waypoint (flat_weather st) (flat_waves st))
                   (waypoints st))
  else mkDataset locs.

(** ** Prompt composer: [format_maritime_prompt] *)

Definition location_section (loc : LocationRecord) : string :=
  let s := ("LOCATION: " ++ name loc)%string in
  let s := if nonempty (weather loc)
           then (s ++ " WEATHER: " ++ join " " (weather loc))%string else s in
  if nonempty (waves loc) then s ++ " WAVES: " ++ join " " (waves loc) else s.

Definition format_maritime_prompt (maritime_data : MaritimeDataset)
    (prefix : string) : string :=
  let sections := if truthy prefix then [prefix] else [] in
  join " " (sections ++ map location_section (locations maritime_data)).

(** ** Narrative segmenter: [parse_location_narratives] *)

(** [s[len(location_name):].lstrip(':').lstrip('-').lstrip().lstrip(':').lstrip()] *)
Definition strip_heading (s location_name : string) : string :=
  lstrip
    (lstrip_char ":"
       (lstrip
          (lstrip_char "-"
             (lstrip_char ":" (drop (String.length location_name) s))))).

Definition clean_narrative_line (line location_name : string) : string :=
  let line := replace_bold line in
  let line := if startswith (lower location_name) (lower line)
              then strip_heading line location_name else line in
  strip line.

(** The inner [for location in locations: ... break]: the name of the first
    location that occurs in the line, case-insensitively. *)
Fixpoint find_location (line : string) (locs : list LocationRecord)
    : option string :=
  match locs with
  | [] => None
  | loc :: rest =>
      if contains (lower (name loc)) (lower line) then Some (name loc)
      else find_location line rest
  end.

(** The loop variables of the primary pass. *)
Record seg_state : Type := mkSeg {
  current_location : option string;
  current_narrative : list string;
  emitted : list NarrativeRecord
}.

Definition seg_init : seg_state := mkSeg None [] [].

Definition option_truthy (o : option string) : bool :=
  match o with
  | Some s => truthy s
  | None => false
  end.

(** [if current_location and current_narrative: narratives.append(...)] *)
Definition flush (st : seg_state) : list NarrativeRecord :=
  match current_location st with
  | Some loc =>
      if truthy loc && nonempty (current_narrative st)
      then emitted st
             ++ [mkNarrative loc (join " " (current_narrative st)) None None]
      else emitted st
  | None => emitted st
  end.

(** One iteration of [for line in response_lines]. *)
Definition line_step (locs : list LocationRecord) (st : seg_state)
    (raw_line : string) : seg_state :=
  let line := strip raw_line in
  if negb (truthy line) then st
  else
    let found_location := find_location line locs in
    if option_truthy found_location then
      let found := match found_location with Some f => f | None => "" end in
      let cleaned_line := clean_narrative_line line found in
      mkSeg (Some found)
            (if truthy cleaned_line then [cleaned_line] else [])
            (flush st)
    else if option_truthy (current_location st) then
      mkSeg (current_location st) (current_narrative st ++ [line]) (emitted st)
    else st.

(** The primary, line-oriented pass, including the final flush. *)
Definition primary_pass (claude_response : string)
    (locs : list LocationRecord) : list NarrativeRecord :=
  let response_lines := split "010" (strip claude_response) in
  flush (fold_left (line_step locs) response_lines seg_init).

(** The inner [for loc in locations: ... break] of the fallback: strip the
    first location name the text starts with. *)
Fixpoint strip_first_heading (narrative : string) (locs : list LocationRecord)
    : string :=
  match locs with
  | [] => narrative
  | loc :: rest =>
      if startswith (lower (name loc)) (lower narrative)
      then strip_heading narrative (name loc)
      else strip_first_heading narrative rest
  end.

(** [sentences[start_idx:end_idx]] for location number [i]. *)
Definition chunk (sentences : list string) (sentences_per_location i : nat)
    : list string :=
  let start_idx := i * sentences_per_location in
  let end_idx := start_idx + sentences_per_location in
  slice sentences start_idx end_idx.

(** The body of the fallback loop for location number [i]: the records it
    appends (none or one). *)
Definition chunk_records (locs : list LocationRecord) (sentences : list string)
    (sentences_per_location i : nat) (loc : LocationRecord)
    : list NarrativeRecord :=
  let narrative_sentences := chunk sentences sentences_per_location i in
  let narrative := strip (join "." narrative_sentences) in
  if truthy narrative then
    let narrative := replace_bold narrative in
    let narrative := strip_first_heading narrative locs in
    [mkNarrative (name loc)
       (if negb (endswith_char "." narrative) then (narrative ++ ".")%string
        else narrative)
       None None]
  else [].

(** [for i, location in enumerate(locations)] of the fallback. *)
Fixpoint fallback_loop (locs : list LocationRecord) (sentences : list string)
    (sentences_per_location i : nat) (todo : list LocationRecord)
    (acc : list NarrativeRecord) : list NarrativeRecord :=
  match todo with
  | [] => acc
  | loc :: more =>
      fallback_loop locs sentences sentences_per_location (S i) more
        (acc ++ chunk_records locs sentences sentences_per_location i loc)
  end.

(** [if not narratives and locations], the test that guards the fallback. *)
Definition runs_fallback (claude_response : string)
    (locs : list LocationRecord) : bool :=
  negb (nonempty (primary_pass claude_response locs)) && nonempty locs.

Local Open Scope py_scope.

(** [max(1, len(sentences) // len(locations))] *)
Definition sentences_per_location (sentences : list string)
    (locs : list LocationRecord) : result nat :=
  q <- floordiv (List.length sentences) (List.length locs) ;;
  Ok (Nat.max 1 q).

(** [parse_location_narratives(claude_response, locations)] *)
Definition parse_location_narratives (claude_response : string)
    (locs : list LocationRecord) : result (list NarrativeRecord) :=
  let narratives := primary_pass claude_response locs in
  if negb (nonempty narratives) && nonempty locs then
    let sentences := split "." claude_response in
    spl <- sentences_per_location sentences locs ;;
    Ok (fallback_loop locs sentences spl 0 locs narratives)
  else Ok narratives.

(** ** Response assembler: [create_response_json] *)

(** The inner [for location in locations: ... break]: the facts of the first
    location with exactly this name are attached, when not empty. *)
Fixpoint enrich (locs : list LocationRecord) (n : NarrativeRecord)
    : NarrativeRecord :=
  match locs with
  | [] => n
  | loc :: rest =>
      if String.eqb (name loc) (location n) then
        mkNarrative (location n) (narrative n)
          (if nonempty (weather loc) then Some (weather loc) else n_weather n)
          (if nonempty (waves loc) then Some (waves loc) else n_waves n)
      else enrich rest n
  end.

(** [create_response_json(narratives, model, input_data, maritime_data,
    status, error)]; [now] stands for [datetime.now().isoformat()].  The
    defaults of the source are [maritime_data=None], [status="success"],
    [error=None]. *)
Definition create_response_json (narratives : list NarrativeRecord)
    (model : string) (input_data : json)
    (maritime_data : option MaritimeDataset) (status : string)
    (error : option string) (now : string) : ResponseEnvelope :=
  let narratives :=
    match maritime_data with
    | Some md =>
        if nonempty narratives then map (enrich (locations md)) narratives
        else narratives
    | None => narratives
    end in
  mkEnvelope narratives model now (List.length narratives) status
    (if option_truthy error then error else None).

(** ** Reference definitions used to state the properties *)

(** The facts one mapping node collects from its own pairs, without the
    recursive calls. *)
Definition own_step (key : string) (value : json) (nd : node) : node :=
  match value with
  | JStr s => if truthy (strip s) then classify_string key s nd else nd
  | JDict sub =>
      if any_keyword WEATHER_KEYWORDS (lower key) then
        mkNode (location_name nd) (weather_data nd ++ sub_facts sub)
               (wave_data nd)
      else if any_keyword WAVE_KEYWORDS (lower key) then
        mkNode (location_name nd) (weather_data nd)
               (wave_data nd ++ sub_facts sub)
      else nd
  | _ => nd
  end.

Definition own_facts (d : list (string * json)) : node :=
  fold_left (fun nd kv => own_step (fst kv) (snd kv) nd) d empty_node.

(** A mapping node qualifies when it collected a location name and at least
    one weather or wave fact; it then stands for one LocationRecord. *)
Definition own_record (d : list (string * json)) : list LocationRecord :=
  let nd := own_facts d in
  match location_name nd with
  | Some n =>
      if truthy n && (nonempty (weather_data nd) || nonempty (wave_data nd))
      then [mkLocation n (weather_data nd) (wave_data nd)]
      else []
  | None => []
  end.

(** A key under which a mapping is flattened into facts instead of being
    visited as a node. *)
Definition fact_key (key : string) : bool :=
  any_keyword WEATHER_KEYWORDS (lower key)
  || any_keyword WAVE_KEYWORDS (lower key).

(** The design document's reading of the classifier: every call returns the
    records of its own subtree, one per qualifying mapping node, in
    depth-first traversal order, and the caller concatenates them. *)
Fixpoint qualifying_records (obj : json) : list LocationRecord :=
  match obj with
  | JDict d =>
      flat_map (fun kv =>
                  match snd kv with
                  | JDict _ =>
                      if fact_key (fst kv) then []
                      else qualifying_records (snd kv)
                  | JList items => flat_map qualifying_records items
                  | _ => []
                  end) d
      ++ own_record d
  | JList items => flat_map qualifying_records items
  | _ => []
  end.

(** The children of a flattened mapping that become facts: non-blank
    strings. *)
Definition is_fact_child (kv : string * json) : bool :=
  match snd kv with
  | JStr s => truthy (strip s)
  | _ => false
  end.

(** The fact made of such a child: ["{sub_key}: {sub_value.strip()}"]. *)
Definition child_fact (kv : string * json) : string :=
  match snd kv with
  | JStr s => fact (fst kv) s
  | _ => EmptyString
  end.

(** Every mapping that sits under a weather or wave key loses all children
    other than its non-blank strings. *)
Fixpoint prune_facts (obj : json) : json :=
  match obj with
  | JDict d =>
      JDict (map (fun kv =>
                    match snd kv with
                    | JDict sub =>
                        if fact_key (fst kv)
                        then (fst kv, JDict (filter is_fact_child sub))
                        else (fst kv, prune_facts (snd kv))
                    | JList items => (fst kv, JList (map prune_facts items))
                    | _ => kv
                    end) d)
  | JList items => JList (map prune_facts items)
  | _ => obj
  end.

(** A reply line that starts a new section in the primary pass: non-blank
    and containing a non-empty location name first in list order. *)
Definition is_heading (locs : list LocationRecord) (raw_line : string)
    : bool :=
  let line := strip raw_line in
  truthy line && option_truthy (find_location line locs).

Definition heading_lines (claude_response : string)
    (locs : list LocationRecord) : list string :=
  filter (is_heading locs) (split "010" (strip claude_response)).

(** What the primary pass has still to flush: one record at most. *)
Definition pending (st : seg_state) : nat :=
  if option_truthy (current_location st) then 1 else 0.

(** The text of a record is not empty. *)
Definition has_text (r : NarrativeRecord) : Prop := narrative r <> "".

(** A document the classifier can traverse. *)
Definition is_container (data : json) : bool :=
  match data with
  | JList _ | JDict _ => true
  | _ => false
  end.

(** Induction on documents that reaches the elements of sequences and the
    values of mappings. *)
Section JsonInduction.
Variable P : json -> Prop.
Hypothesis Hnull : P JNull.
Hypothesis Hbool : forall b, P (JBool b).
Hypothesis Hnum : forall n, P (JNum n).
Hypothesis Hstr : forall s, P (JStr s).
Hypothesis Hlist : forall items, Forall P items -> P (JList items).
Hypothesis Hdict :
  forall d, Forall (fun kv => P (snd kv)) d -> P (JDict d).

Fixpoint json_nested_ind (j : json) : P j :=
  match j with
  | JNull => Hnull
  | JBool b => Hbool b
  | JNum n => Hnum n
  | JStr s => Hstr s
  | JList items =>
      Hlist items
        ((fix all (l : list json) : Forall P l :=
            match l with
            | [] => Forall_nil _
            | x :: r => Forall_cons x (json_nested_ind x) (all r)
            end) items)
  | JDict d =>
      Hdict d
        ((fix all (l : list (string * json))
            : Forall (fun kv => P (snd kv)) l :=
            match l with
            | [] => Forall_nil _
            | kv :: r => Forall_cons kv (json_nested_ind (snd kv)) (all r)
            end) d)
  end.
End JsonInduction.


(** ** Sample documents and replies *)

(** One qualifying node under ["a"], followed by a sibling mapping that
    qualifies for nothing. *)
Definition sibling_doc : json :=
  JDict [("a", JDict [("name", JStr "A"); ("wind", JStr "x")]);
         ("b", JDict [("foo", JStr "bar")])].

Definition record_A : LocationRecord := mkLocation "A" ["wind: x"] [].

(** [test_maritime_data] of [test_api_server.py]. *)
Definition degrees (n : string) : string := n ++ String "176" "F".

Definition test_location (nm lat lon : string) (w v : list (string * json))
    : json :=
  JDict [("name", JStr nm);
         ("coordinates", JDict [("lat", JNum lat); ("lon", JNum lon)]);
         ("weather_conditions", JDict w);
         ("wave_data", JDict v)].

Definition test_maritime_data : json :=
  JDict
    [("mission_data",
      JDict [("vessel_name", JStr "Research Vessel Explorer");
             ("mission_type", JStr "Scientific Survey")]);
     ("locations",
      JList
        [test_location "Cape Cod Bay" "41.9" "-70.1"
           [("wind_speed", JStr "12 knots");
            ("wind_direction", JStr "southwest");
            ("temperature", JStr (degrees "72"));
            ("visibility", JStr "8 nautical miles");
            ("condition", JStr "clear skies")]
           [("significant_wave_height", JStr "2-3 feet");
            ("wave_direction", JStr "from the south");
            ("wave_period", JStr "6 seconds");
            ("sea_condition", JStr "calm to moderate")];
         test_location "Stellwagen Bank" "42.1" "-70.2"
           [("wind_speed", JStr "18 knots");
            ("wind_direction", JStr "northeast");
            ("temperature", JStr (degrees "69"));
            ("visibility", JStr "12 nautical miles");
            ("condition", JStr "partly cloudy")]
           [("significant_wave_height", JStr "4-5 feet");
            ("wave_direction", JStr "from the east");
            ("wave_period", JStr "8 seconds");
            ("sea_condition", JStr "moderate seas")];
         test_location "Georges Bank" "41.7" "-68.5"
           [("wind_speed", JStr "22 knots");
            ("wind_direction", JStr "northeast");
            ("temperature", JStr (degrees "65"));
            ("visibility", JStr "15 nautical miles");
            ("condition", JStr "overcast")]
           [("significant_wave_height", JStr "6-8 feet");
            ("wave_direction", JStr "from the northeast");
            ("wave_period", JStr "10 seconds");
            ("sea_condition", JStr "rough seas")]]);
     ("timestamp", JStr "2025-09-26T15:30:00Z")].

(** A weather mapping with a nested mapping, a sequence, a number and a
    blank string next to its one fact. *)
Definition cluttered_doc : json :=
  JDict
    [("site",
      JDict
        [("name", JStr "A");
         ("weather",
          JDict
            [("wind", JStr "x");
             ("detail", JDict [("name", JStr "B"); ("wind", JStr "y")]);
             ("history", JList [JDict [("port", JStr "C");
                                       ("swell", JStr "z")]]);
             ("gust", JNum "3");
             ("note", JStr "  ")])])].

(** The scenario document of the design document. *)
Definition cape_cod_doc : json :=
  JDict [("waypoint", JStr "Cape Cod Bay");
         ("wind_speed", JStr "12 knots");
         ("wave_height", JStr "3 feet")].

Definition cape_cod_dataset : MaritimeDataset :=
  mkDataset [mkLocation "Cape Cod Bay" ["wind_speed: 12 knots"]
                        ["wave_height: 3 feet"]].

(** A location that carries only a name. *)
Definition named (n : string) : LocationRecord := mkLocation n [] [].

(** A narrative record as the segmenter builds it. *)
Definition told (loc text : string) : NarrativeRecord :=
  mkNarrative loc text None None.

Definition newline : string := String "010" EmptyString.

(** A reply of five sentences that names no location. *)
Definition five_sentences : string := "one. two. three. four. five".

(** Two headings for the same location on two lines. *)
Definition repeated_heading_reply : string := "A: x" ++ newline ++ "A: y".

(** ["{name1}: sentence one. {name2}: sentence two."] *)
Definition round_trip_reply (name1 name2 : string) : string :=
  name1 ++ ": sentence one. " ++ name2 ++ ": sentence two.".

(** The same two sections, one per line. *)
Definition two_line_reply (name1 name2 : string) : string :=
  name1 ++ ": sentence one." ++ newline ++ name2 ++ ": sentence two.".

(** ** Callers: the HTTP endpoints of [api.py] and [main] *)

(** Outcome of a call into an external collaborator: its value, or the
    text [str(e)] of the exception it raised. *)
Inductive outcome (A : Type) : Type :=
| Done (a : A)
| Failed (message : string).
Arguments Done {A} a.
Arguments Failed {A} message.

(** Outcome of [requests.get(url).json()] in [generate_narrative_from_url]:
    the handlers tell a [RequestException] from any other exception. *)
Inductive fetched : Type :=
| Fetched (json_data : json)
| RequestException (message : string)
| OtherException (message : string).

(** What an endpoint hands to the framework: the returned body, or
    [raise HTTPException(status_code, detail)]. *)
Inductive http_result : Type :=
| Returned (body : ResponseEnvelope)
| HTTPException (status_code : nat) (detail : ResponseEnvelope).

Section Callers.

(** [bedrock.invoke_model] with the decoding of its body, by model, token
    limit, region and prompt. *)
Variable invoke_model : string -> nat -> string -> string -> outcome string.
(** [str(e)] for an exception raised by a stage of the pipeline. *)
Variable str_exn : exn -> string.
(** [datetime.now().isoformat()] *)
Variable now : string.

(** [call_claude_api(prompt, model, max_tokens, aws_region)]: every
    exception is raised again as
    [RuntimeError(f"Claude API call failed: {e}")]. *)
Definition call_claude_api (prompt model : string) (max_tokens : nat)
    (aws_region : string) : outcome string :=
  match invoke_model model max_tokens aws_region prompt with
  | Done text => Done text
  | Failed e => Failed ("Claude API call failed: " ++ e)
  end.

(** [create_response_json(narratives=[], model=..., input_data={},
    status="error", error=...)], the envelope of every handler. *)
Definition error_result (model message : string) : ResponseEnvelope :=
  create_response_json [] model (JDict []) None "error" (Some message) now.

(** The body of the [try] shared by [main] and the two endpoints, from the
    parsed document on; [with_dataset] tells whether the dataset is passed
    on to [create_response_json]. *)
Definition respond (with_dataset : bool) (input_data : json)
    (prompt_prefix model : string) (max_tokens : nat) (aws_region : string)
    : outcome ResponseEnvelope :=
  let maritime_data := extract_maritime_data input_data in
  let full_prompt := format_maritime_prompt maritime_data prompt_prefix in
  match call_claude_api full_prompt model max_tokens aws_region with
  | Failed message => Failed message
  | Done claude_response =>
      match parse_location_narratives claude_response
              (locations maritime_data) with
      | Raise e => Failed (str_exn e)
      | Ok narratives =>
          Done (create_response_json narratives model input_data
                  (if with_dataset then Some maritime_data else None)
                  "success" None now)
      end
  end.

(** [generate_narrative(input_data)] of [api.py]. *)
Definition generate_narrative (data : json) (prompt_prefix model : string)
    (max_tokens : nat) (aws_region : string) : http_result :=
  match respond true data prompt_prefix model max_tokens aws_region with
  | Done result => Returned result
  | Failed message => HTTPException 500 (error_result model message)
  end.

(** [generate_narrative_from_url(input_data)] of [api.py]; [response] is the
    outcome of fetching and decoding [url]. *)
Definition generate_narrative_from_url (url : string) (response : fetched)
    (prompt_prefix model : string) (max_tokens : nat) (aws_region : string)
    : http_result :=
  match response with
  | Fetched json_data =>
      match respond false json_data prompt_prefix model max_tokens
              aws_region with
      | Done result => Returned result
      | Failed message => HTTPException 500 (error_result model message)
      end
  | RequestException e =>
      HTTPException 400
        (error_result model ("Failed to fetch from URL " ++ url ++ ": " ++ e))
  | OtherException e => HTTPException 500 (error_result model e)
  end.

(** The envelope [main] prints; [parsed] is the outcome of
    [parse_json_input(args.input)]. *)
Definition main_result (parsed : outcome json) (prompt_prefix model : string)
    (max_tokens : nat) (aws_region : string) : ResponseEnvelope :=
  match parsed with
  | Failed message => error_result model message
  | Done input_data =>
      match respond true input_data prompt_prefix model max_tokens
              aws_region with
      | Done result => result
      | Failed message => error_result model message
      end
  end.

End Callers.

(** ** Further notions used to state properties *)

(** A string as [str.strip] leaves it. *)
Definition trimmed (s : string) : Prop := strip s = s.

(** A document without any non-blank string value. *)
Fixpoint no_text (obj : json) : bool :=
  match obj with
  | JStr s => negb (truthy (strip s))
  | JList items => forallb no_text items
  | JDict d => forallb (fun kv => no_text (snd kv)) d
  | _ => true
  end.

(** Concatenation of two triples of flat lists. *)
Definition flat_app (a b : flat) : flat :=
  mkFlat (waypoints a ++ waypoints b) (flat_weather a ++ flat_weather b)
         (flat_waves a ++ flat_waves b).

(** The loops of [fallback_extract] as functions of their own. *)
Fixpoint fallback_enumerate (parent_key : string) (items : list json)
    (i : nat) (st : flat) : flat :=
  match items with
  | [] => st
  | item :: more =>
      fallback_enumerate parent_key more (S i)
        (fallback_extract item (list_item_key parent_key i) st)
  end.

Definition fallback_step (parent_key key : string) (value : json) (st : flat)
    : flat :=
  match value with
  | JStr s =>
      if truthy (strip s) then flat_string parent_key key s st
      else fallback_extract value (dict_child_key parent_key key) st
  | _ => fallback_extract value (dict_child_key parent_key key) st
  end.

Fixpoint fallback_items (parent_key : string) (d : list (string * json))
    (st : flat) : flat :=
  match d with
  | [] => st
  | (key, value) :: rest =>
      fallback_items parent_key rest (fallback_step parent_key key value st)
  end.

(** A fact as the classifier and the flattener build it:
    ["{key}: {value}"] with a non-empty, trimmed value. *)
Definition well_formed_fact (f : string) : Prop :=
  exists key value,
    f = (key ++ ": " ++ value)%string /\ value <> "" /\ trimmed value.

(** A location record with a non-empty trimmed name and well-formed
    facts. *)
Definition well_formed_location (l : LocationRecord) : Prop :=
  name l <> "" /\ trimmed (name l)
  /\ Forall well_formed_fact (weather l)
  /\ Forall well_formed_fact (waves l).

(** A mapping whose keys match keywords but whose values hold no text. *)
Definition textless_doc : json :=
  JDict [("name", JNum "1");
         ("wind", JList [JBool true; JStr "  "]);
         ("weather", JDict [("wind", JNull)])].

(** A mapping node all of whose visited descendants qualify: the node
    itself stands for a record, each mapping below it that is visited as a
    node does, and each element of a sequence below it is such a mapping.
    Sequences and scalars visited as nodes return the shared list and are
    left out. *)
Fixpoint every_node_qualifies (obj : json) : bool :=
  match obj with
  | JDict d =>
      nonempty (own_record d)
      && forallb (fun kv =>
                    match snd kv with
                    | JDict _ =>
                        fact_key (fst kv) || every_node_qualifies (snd kv)
                    | JList items => forallb every_node_qualifies items
                    | _ => true
                    end) d
  | _ => false
  end.

(** Two flat locations in a top-level sequence. *)
Definition two_locations_doc : json :=
  JList [JDict [("name", JStr "A"); ("wind", JStr "x")];
         JDict [("port", JStr "B"); ("swell", JStr "y")]].

(** One qualifying mapping followed by [k] numbers in a top-level
    sequence: [[{"name": "A", "wind": "x"}, 0, ..., 0]]. *)
Definition doubling_doc (k : nat) : json :=
  JList (JDict [("name", JStr "A"); ("wind", JStr "x")]
         :: repeat (JNum "0") k).

(** A reply made of a heading with nothing after it. *)
Definition bare_heading_reply : string := "A:".

(** The facts a pair of a mapping node adds to the node's weather list:
    a non-blank string under a weather key that is no waypoint key, or the
    non-blank string children of a mapping under a weather key. *)
Definition weather_part (kv : string * json) : list string :=
  let key_lower := lower (fst kv) in
  match snd kv with
  | JStr s =>
      if truthy (strip s)
         && negb (any_keyword WAYPOINT_KEYWORDS key_lower)
         && any_keyword WEATHER_KEYWORDS key_lower
      then [fact (fst kv) s] else []
  | JDict sub =>
      if any_keyword WEATHER_KEYWORDS key_lower
      then map child_fact (filter is_fact_child sub) else []
  | _ => []
  end.

(** The same for the wave list: the key matches a wave keyword and no
    keyword tested before it. *)
Definition wave_part (kv : string * json) : list string :=
  let key_lower := lower (fst kv) in
  match snd kv with
  | JStr s =>
      if truthy (strip s)
         && negb (any_keyword WAYPOINT_KEYWORDS key_lower)
         && negb (any_keyword WEATHER_KEYWORDS key_lower)
         && any_keyword WAVE_KEYWORDS key_lower
      then [fact (fst kv) s] else []
  | JDict sub =>
      if negb (any_keyword WEATHER_KEYWORDS key_lower)
         && any_keyword WAVE_KEYWORDS key_lower
      then map child_fact (filter is_fact_child sub) else []
  | _ => []
  end.
(** * Properties *)

(** ** Unfolding equations of the classifier *)

Lemma extract_location_data_dict d parent_key locs :
  extract_location_data (JDict d) parent_key locs
  = let '(nd, locs1) := items_loop parent_key d empty_node locs in
    finish_node nd locs1.
Proof.
  cbn [extract_location_data].
  match goal with
  | |- (let '(_, _) := ?F d empty_node locs in _) = _ =>
      assert (H : forall d nd locs, F d nd locs = items_loop parent_key d nd locs)
  end.
  { clear. induction d as [|[key value] rest IH]; intros nd locs.
    - reflexivity.
    - destruct value; cbn [items_loop items_step]; try apply IH.
      + destruct (truthy (strip s)); apply IH.
      + rewrite IH. f_equal.
        generalize 0 as i. revert locs.
        induction items as [|item more IHm]; intros locs i; [reflexivity|].
        cbn [enumerate_loop].
        destruct (extract_location_data item _ locs) as [r locs1].
        apply IHm.
      + destruct (any_keyword WEATHER_KEYWORDS (lower key)); [apply IH|].
        destruct (any_keyword WAVE_KEYWORDS (lower key)); [apply IH|].
        destruct (extract_location_data (JDict pairs) _ locs) as [r locs1].
        apply IH. }
  rewrite H. reflexivity.
Qed.

Lemma extract_location_data_list items parent_key locs :
  extract_location_data (JList items) parent_key locs
  = (SharedLocations,
     enumerate_loop (list_item_key parent_key) items 0 locs).
Proof.
  cbn [extract_location_data]. f_equal.
  generalize 0 as i. revert locs.
  induction items as [|item more IH]; intros locs i; [reflexivity|].
  cbn [enumerate_loop].
  destruct (extract_location_data item _ locs) as [r locs1].
  apply IH.
Qed.

(** ** Classifier on the sample documents *)

Example qualifying_records_test_data :
  map name (qualifying_records test_maritime_data)
  = ["Cape Cod Bay"; "Stellwagen Bank"; "Georges Bank"].
Proof. vm_compute. reflexivity. Qed.

(** On the repository's own test document every location but the last is
    emitted more than once: each [coordinates] mapping makes the nested call
    return the shared list, which is then appended to itself. *)
Example primary_locations_test_data :
  map name (primary_locations test_maritime_data)
  = ["Cape Cod Bay"; "Cape Cod Bay"; "Stellwagen Bank"; "Cape Cod Bay";
     "Cape Cod Bay"; "Stellwagen Bank"; "Georges Bank"].
Proof. vm_compute. reflexivity. Qed.

(** C1, evaluated at [sibling_doc]: the document has one qualifying node,
    the mapping under ["a"], and the classifier returns its LocationRecord
    twice.  The nested call for ["b"] returns the shared list [locations],
    and [locations.extend(nested_result)] appends that list to itself. *)
Theorem C1_sibling_doc_duplicates :
  qualifying_records sibling_doc = [record_A]
  /\ extract_location_data (JDict [("foo", JStr "bar")]) "b" [record_A]
     = (SharedLocations, [record_A])
  /\ primary_locations sibling_doc = [record_A; record_A]
  /\ extract_maritime_data sibling_doc = mkDataset [record_A; record_A].
Proof. repeat split; vm_compute; reflexivity. Qed.

(** C5, as stated, fails: on the scenario document the primary pass already
    emits the record, so the fallback is not taken. *)
Lemma C5_fallback_not_taken :
  ~ (takes_fallback cape_cod_doc = true
     /\ extract_maritime_data cape_cod_doc = cape_cod_dataset).
Proof. intros [H _]. vm_compute in H. discriminate. Qed.

(** C5, amended: the scenario document is classified on the primary path
    (its top-level mapping is itself a qualifying node, the fallback is
    skipped) and yields the dataset of the scenario. *)
Theorem C5_cape_cod_primary_path :
  takes_fallback cape_cod_doc = false
  /\ primary_locations cape_cod_doc = locations cape_cod_dataset
  /\ extract_maritime_data cape_cod_doc = cape_cod_dataset.
Proof. repeat split; vm_compute; reflexivity. Qed.

(** ** What the classifier does guarantee *)

Lemma extend_with_In r locs (x : LocationRecord) :
  In x (extend_with r locs) <-> In x locs.
Proof.
  destruct r; cbn [extend_with]; [|tauto].
  destruct (nonempty locs); [|tauto].
  rewrite in_app_iff. tauto.
Qed.

Lemma finish_node_In d locs (x : LocationRecord) :
  In x (snd (finish_node (own_facts d) locs))
  <-> In x locs \/ In x (own_record d).
Proof.
  unfold finish_node, own_record.
  destruct (location_name (own_facts d)) as [n|]; [|cbn; tauto].
  destruct (truthy n && _); cbn [snd]; [|cbn; tauto].
  now rewrite in_app_iff.
Qed.

(** The records of the children of a mapping node, in the reading of the
    design document. *)
Lemma items_step_node parent_key key value nd locs :
  fst (items_step parent_key key value nd locs) = own_step key value nd.
Proof.
  destruct value; cbn [items_step own_step fst]; try reflexivity.
  - now destruct (truthy (strip s)).
  - destruct (any_keyword WEATHER_KEYWORDS (lower key)); [reflexivity|].
    destruct (any_keyword WAVE_KEYWORDS (lower key)); [reflexivity|].
    now destruct (extract_location_data (JDict pairs) _ locs).
Qed.

(** Up to repetition, the classifier returns the records of the qualifying
    nodes: every record in the shared list after a call was there before or
    belongs to a qualifying node of the visited subtree, and every
    qualifying node of the subtree has its record in the list. *)
Lemma extract_location_data_In :
  forall (obj : json) (parent_key : string) (locs : list LocationRecord)
         (x : LocationRecord),
    In x (snd (extract_location_data obj parent_key locs))
    <-> In x locs \/ In x (qualifying_records obj).
Proof.
  intros obj.
  enough (H : (forall parent_key locs x,
                 In x (snd (extract_location_data obj parent_key locs))
                 <-> In x locs \/ In x (qualifying_records obj))
              /\ match obj with
                 | JList items =>
                     forall item_key i locs x,
                       In x (enumerate_loop item_key items i locs)
                       <-> In x locs \/ In x (flat_map qualifying_records items)
                 | _ => True
                 end) by apply H.
  induction obj as [| | | |items IH|d IH] using json_nested_ind;
    try (split; [cbn; tauto | exact I]).
  - assert (He : forall item_key i locs x,
               In x (enumerate_loop item_key items i locs)
               <-> In x locs \/ In x (flat_map qualifying_records items)).
    { intros item_key. induction IH as [|item more [Hitem _] _ IHm];
        intros i locs x; [cbn; tauto|].
      cbn [enumerate_loop flat_map].
      specialize (Hitem (item_key i) locs x).
      destruct (extract_location_data item (item_key i) locs) as [r locs1].
      cbn [snd] in Hitem.
      rewrite IHm, extend_with_In, Hitem, in_app_iff. tauto. }
    split; [|exact He].
    intros parent_key locs x.
    rewrite extract_location_data_list. cbn [snd qualifying_records].
    apply He.
  - split; [|exact I].
    intros parent_key locs x.
    rewrite extract_location_data_dict.
    cbn [qualifying_records].
    set (children := fun kv : string * json =>
                       match snd kv with
                       | JDict _ =>
                           if fact_key (fst kv) then []
                           else qualifying_records (snd kv)
                       | JList items => flat_map qualifying_records items
                       | _ => []
                       end).
    assert (Hl : forall nd locs,
               fst (items_loop parent_key d nd locs)
               = fold_left (fun nd kv => own_step (fst kv) (snd kv) nd) d nd
               /\ forall x,
                    In x (snd (items_loop parent_key d nd locs))
                    <-> In x locs \/ In x (flat_map children d)).
    { clear locs x.
      induction IH as [|[key value] rest [Hv Hitems] _ IHr]; intros nd locs.
      - cbn. split; [reflexivity | tauto].
      - cbn [items_loop fold_left flat_map fst snd].
        pose proof (items_step_node parent_key key value nd locs) as Hn.
        assert (Hs : forall x,
                   In x (snd (items_step parent_key key value nd locs))
                   <-> In x locs \/ In x (children (key, value))).
        { intros x. unfold children. cbn [fst snd] in *.
          destruct value; cbn [items_step snd]; try (cbn; tauto).
          - destruct (truthy (strip s)); cbn; tauto.
          - apply Hitems.
          - unfold fact_key.
            destruct (any_keyword WEATHER_KEYWORDS (lower key));
              [cbn; tauto|].
            destruct (any_keyword WAVE_KEYWORDS (lower key)); [cbn; tauto|].
            cbn [orb].
            specialize (Hv (dict_child_key parent_key key) locs x).
            destruct (extract_location_data (JDict pairs) _ locs)
              as [r locs1].
            cbn [snd] in *. now rewrite extend_with_In. }
        destruct (items_step parent_key key value nd locs) as [nd1 locs1].
        cbn [fst snd] in Hn, Hs. subst nd1.
        destruct (IHr (own_step key value nd) locs1) as [Hf Hi].
        split; [exact Hf|].
        intros x. rewrite Hi, Hs, in_app_iff. tauto. }
    destruct (Hl empty_node locs) as [Hf Hi].
    destruct (items_loop parent_key d empty_node locs) as [nd locs1].
    cbn [fst snd] in Hf, Hi.
    fold (own_facts d) in Hf. subst nd.
    rewrite finish_node_In, Hi, in_app_iff. tauto.
Qed.

Corollary primary_locations_In data (x : LocationRecord) :
  In x (primary_locations data) <-> In x (qualifying_records data).
Proof.
  unfold primary_locations. rewrite extract_location_data_In. cbn. tauto.
Qed.

(** ** Response assembler *)

Lemma enrich_location locs n : location (enrich locs n) = location n.
Proof.
  induction locs as [|loc rest IH]; cbn [enrich]; [reflexivity|].
  destruct (String.eqb (name loc) (location n)); [reflexivity | exact IH].
Qed.

Lemma enrich_narrative locs n : narrative (enrich locs n) = narrative n.
Proof.
  induction locs as [|loc rest IH]; cbn [enrich]; [reflexivity|].
  destruct (String.eqb (name loc) (location n)); [reflexivity | exact IH].
Qed.

(** C3, as stated, fails: with [error = "timeout"] the narratives passed in
    are kept and counted, and [status] stays what the caller gave (here the
    default ["success"]). *)
Lemma C3_error_keeps_narratives_and_status :
  let e := create_response_json [told "A" "x"] "m" JNull None "success"
             (Some "timeout") "T" in
  narratives e = [told "A" "x"]
  /\ locations_count e = 1
  /\ status e = "success"
  /\ e <> mkEnvelope [] "m" "T" 0 "error" (Some "timeout").
Proof. repeat split; try reflexivity. vm_compute. discriminate. Qed.

(** C3, amended: a non-empty [error] is attached verbatim; [status] is the
    caller's argument and the narratives are the ones passed in, one per
    input record with the same location and text, and [locations_count] is
    their number.  The envelope of the scenario is obtained when the caller
    passes no narratives and [status = "error"]. *)
Theorem C3_error_envelope :
  forall (ns : list NarrativeRecord) (m : string) (input_data : json)
         (maritime_data : option MaritimeDataset) (st err now : string),
    err <> "" ->
    let e := create_response_json ns m input_data maritime_data st
               (Some err) now in
    error e = Some err
    /\ status e = st
    /\ locations_count e = List.length ns
    /\ map location (narratives e) = map location ns
    /\ map narrative (narratives e) = map narrative ns
    /\ create_response_json [] m input_data maritime_data "error"
         (Some "timeout") now
       = mkEnvelope [] m now 0 "error" (Some "timeout").
Proof.
  intros ns m input_data maritime_data st err now Herr e.
  assert (Ht : truthy err = true) by (destruct err; [congruence | reflexivity]).
  unfold e, create_response_json. cbn [error status locations_count narratives option_truthy].
  rewrite Ht.
  assert (Hloc : forall md, map location (map (enrich (locations md)) ns)
                            = map location ns).
  { intros md. rewrite map_map. apply map_ext. intros; apply enrich_location. }
  assert (Hnar : forall md, map narrative (map (enrich (locations md)) ns)
                            = map narrative ns).
  { intros md. rewrite map_map. apply map_ext. intros; apply enrich_narrative. }
  destruct maritime_data as [md|]; [destruct (nonempty ns)|];
    repeat split; auto using length_map.
Qed.

Lemma C3_error_envelope_witness :
  let e := create_response_json [told "A" "x"] "m" JNull
             (Some (mkDataset [record_A])) "error" (Some "timeout") "T" in
  error e = Some "timeout"
  /\ status e = "error"
  /\ locations_count e = 1
  /\ map location (narratives e) = ["A"]
  /\ map narrative (narratives e) = ["x"]
  /\ create_response_json [] "m" JNull (Some (mkDataset [record_A])) "error"
       (Some "timeout") "T"
     = mkEnvelope [] "m" "T" 0 "error" (Some "timeout").
Proof.
  apply (C3_error_envelope [told "A" "x"] "m" JNull
           (Some (mkDataset [record_A])) "error" "timeout" "T").
  discriminate.
Defined.

(** ** Narrative segmenter: the primary pass *)

Lemma truthy_true s : truthy s = true <-> s <> "".
Proof. destruct s; cbn; split; congruence. Qed.

Lemma nonempty_false {A} (xs : list A) : nonempty xs = false <-> xs = [].
Proof. destruct xs; cbn; split; congruence. Qed.

Lemma line_step_no_locations raw : line_step [] seg_init raw = seg_init.
Proof.
  unfold line_step. destruct (truthy (strip raw)); reflexivity.
Qed.

Lemma primary_pass_no_locations text : primary_pass text [] = [].
Proof.
  unfold primary_pass.
  induction (split "010" (strip text)) as [|raw rest IH]; [reflexivity|].
  cbn [fold_left]. rewrite line_step_no_locations. exact IH.
Qed.

(** C8: with no locations the segmenter returns the empty sequence for every
    reply: the primary pass matches nothing, and the fallback, which would
    divide by [len(locations)], is not entered. *)
Theorem C8_no_locations_no_records :
  forall text : string,
    primary_pass text [] = []
    /\ runs_fallback text [] = false
    /\ sentences_per_location (split "." text) [] = Raise ZeroDivisionError
    /\ parse_location_narratives text [] = Ok [].
Proof.
  intros text. repeat split.
  - apply primary_pass_no_locations.
  - unfold runs_fallback. apply andb_false_r.
  - unfold parse_location_narratives.
    rewrite primary_pass_no_locations. reflexivity.
Qed.

(** The segmenter returns for every reply and every list of locations: the
    division is reached only with a non-empty list. *)
Lemma parse_location_narratives_returns text locs :
  parse_location_narratives text locs
  = Ok (if runs_fallback text locs
        then fallback_loop locs (split "." text)
               (Nat.max 1 (List.length (split "." text) / List.length locs))
               0 locs []
        else primary_pass text locs).
Proof.
  unfold parse_location_narratives, runs_fallback.
  destruct (nonempty (primary_pass text locs)) eqn:Hp; cbn [negb andb].
  - reflexivity.
  - apply nonempty_false in Hp. rewrite Hp.
    destruct locs as [|loc more]; reflexivity.
Qed.

(** The fallback loop appends, for location number [i], the records of
    chunk number [i]. *)
Lemma fallback_loop_flat locs sentences spl todo :
  forall i acc,
    fallback_loop locs sentences spl i todo acc
    = acc ++ flat_map (fun il => chunk_records locs sentences spl (fst il) (snd il))
               (combine (seq i (List.length todo)) todo).
Proof.
  induction todo as [|loc more IH]; intros i acc; cbn [fallback_loop].
  - cbn. now rewrite app_nil_r.
  - rewrite IH. cbn [List.length seq combine flat_map fst snd].
    now rewrite app_assoc.
Qed.

Lemma chunk_records_length locs sentences spl i loc :
  List.length (chunk_records locs sentences spl i loc) <= 1.
Proof.
  unfold chunk_records.
  destruct (truthy (strip (join "." (chunk sentences spl i)))); cbn; lia.
Qed.

Lemma fallback_loop_length locs sentences spl todo :
  forall i acc,
    List.length (fallback_loop locs sentences spl i todo acc)
    <= List.length acc + List.length todo.
Proof.
  induction todo as [|loc more IH]; intros i acc; cbn [fallback_loop].
  - cbn. lia.
  - specialize (IH (S i) (acc ++ chunk_records locs sentences spl i loc)).
    rewrite length_app in IH.
    pose proof (chunk_records_length locs sentences spl i loc).
    cbn [List.length]. lia.
Qed.

Lemma flush_length st :
  List.length (flush st) <= List.length (emitted st) + pending st.
Proof.
  unfold flush, pending, option_truthy.
  destruct (current_location st) as [loc|]; [|lia].
  destruct (truthy loc); cbn [andb]; [|lia].
  destruct (nonempty (current_narrative st)); rewrite ?length_app; cbn; lia.
Qed.

Lemma line_step_heading_bound locs st raw :
  List.length (emitted (line_step locs st raw)) + pending (line_step locs st raw)
  <= List.length (emitted st) + pending st
     + (if is_heading locs raw then 1 else 0).
Proof.
  unfold line_step, is_heading.
  destruct (truthy (strip raw)); cbn [negb andb]; [|lia].
  destruct (option_truthy (find_location (strip raw) locs)) eqn:Hf.
  - cbn [emitted]. unfold pending at 1. cbn [current_location option_truthy].
    destruct (find_location (strip raw) locs) as [f|]; [|discriminate].
    cbn in Hf. rewrite Hf.
    pose proof (flush_length st). lia.
  - destruct (option_truthy (current_location st)) eqn:Hc.
    + unfold pending. cbn [emitted current_location]. rewrite Hc. lia.
    + lia.
Qed.

Lemma fold_line_step_bound locs lines :
  forall st,
    List.length (emitted (fold_left (line_step locs) lines st))
    + pending (fold_left (line_step locs) lines st)
    <= List.length (emitted st) + pending st
       + List.length (filter (is_heading locs) lines).
Proof.
  induction lines as [|raw rest IH]; intros st; cbn [fold_left filter].
  - cbn. lia.
  - specialize (IH (line_step locs st raw)).
    pose proof (line_step_heading_bound locs st raw).
    destruct (is_heading locs raw); cbn [List.length]; lia.
Qed.

Lemma primary_pass_length text locs :
  List.length (primary_pass text locs)
  <= List.length (heading_lines text locs).
Proof.
  unfold primary_pass, heading_lines.
  pose proof (fold_line_step_bound locs (split "010" (strip text)) seg_init) as H.
  pose proof (flush_length
                (fold_left (line_step locs) (split "010" (strip text)) seg_init)).
  cbn in H. lia.
Qed.

(** C4, as stated, fails on the primary path: two heading lines for the one
    location give two records. *)
Lemma C4_two_headings_one_location :
  parse_location_narratives repeated_heading_reply [named "A"]
  = Ok [told "A" "x"; told "A" "y"]
  /\ runs_fallback repeated_heading_reply [named "A"] = false
  /\ ~ (List.length [told "A" "x"; told "A" "y"]
        <= List.length [named "A"]).
Proof. repeat split; try (vm_compute; reflexivity). cbn. lia. Qed.

(** C4, amended: the segmenter returns at most [len(locations)] records on
    the sentence-split fallback path, and on the primary path at most one
    record per heading line of the reply. *)
Theorem C4_length_bounds :
  forall (text : string) (locs : list LocationRecord),
  exists recs,
    parse_location_narratives text locs = Ok recs
    /\ List.length recs
       <= if runs_fallback text locs then List.length locs
          else List.length (heading_lines text locs).
Proof.
  intros text locs. eexists. split.
  - apply parse_location_narratives_returns.
  - destruct (runs_fallback text locs).
    + apply (fallback_loop_length locs _ _ locs 0 []).
    + apply primary_pass_length.
Qed.

(** ** Non-empty narratives *)

Lemma append_not_empty_l a b : a <> "" -> (a ++ b)%string <> "".
Proof. destruct a; cbn; congruence. Qed.

Lemma append_not_empty_r a b : b <> "" -> (a ++ b)%string <> "".
Proof. destruct a; cbn; [tauto | congruence]. Qed.

Lemma join_not_empty sep x xs : x <> "" -> join sep (x :: xs) <> "".
Proof.
  intros Hx. unfold join. cbn [concat].
  destruct xs; [exact Hx | now apply append_not_empty_l].
Qed.

Lemma endswith_char_not_empty ch s : endswith_char ch s = true -> s <> "".
Proof. destruct s; cbn; congruence. Qed.

(** The loop invariant of the primary pass: every emitted record and every
    buffered line has text. *)
Lemma flush_has_text st :
  Forall has_text (emitted st) ->
  Forall (fun l => l <> "") (current_narrative st) ->
  Forall has_text (flush st).
Proof.
  intros He Hb. unfold flush.
  destruct (current_location st) as [loc|]; [|exact He].
  destruct (truthy loc); cbn [andb]; [|exact He].
  destruct (current_narrative st) as [|l ls]; cbn [nonempty]; [exact He|].
  apply Forall_app. split; [exact He|].
  constructor; [|constructor].
  unfold has_text. cbn [narrative].
  apply join_not_empty. now inversion Hb.
Qed.

Lemma line_step_has_text locs st raw :
  Forall has_text (emitted st) ->
  Forall (fun l => l <> "") (current_narrative st) ->
  Forall has_text (emitted (line_step locs st raw))
  /\ Forall (fun l => l <> "") (current_narrative (line_step locs st raw)).
Proof.
  intros He Hb. unfold line_step.
  destruct (truthy (strip raw)) eqn:Hl; cbn [negb]; [|now split].
  destruct (option_truthy (find_location (strip raw) locs)).
  - cbn [emitted current_narrative]. split.
    + now apply flush_has_text.
    + destruct (truthy (clean_narrative_line _ _)) eqn:Hc; constructor;
        [now apply truthy_true | constructor].
  - destruct (option_truthy (current_location st)); [|now split].
    cbn [emitted current_narrative]. split; [exact He|].
    apply Forall_app. split; [exact Hb|].
    constructor; [now apply truthy_true | constructor].
Qed.

Lemma primary_pass_has_text text locs :
  Forall has_text (primary_pass text locs).
Proof.
  unfold primary_pass.
  assert (H : forall lines st,
             Forall has_text (emitted st) ->
             Forall (fun l => l <> "") (current_narrative st) ->
             Forall has_text (flush (fold_left (line_step locs) lines st))).
  { induction lines as [|raw rest IH]; intros st He Hb; cbn [fold_left].
    - now apply flush_has_text.
    - destruct (line_step_has_text locs st raw He Hb). now apply IH. }
  apply H; constructor.
Qed.

Lemma chunk_records_has_text locs sentences spl i loc :
  Forall has_text (chunk_records locs sentences spl i loc).
Proof.
  unfold chunk_records.
  destruct (truthy (strip (join "." (chunk sentences spl i)))); constructor;
    [|constructor].
  unfold has_text. cbn [narrative].
  destruct (endswith_char "." _) eqn:He; cbn [negb].
  - now apply endswith_char_not_empty in He.
  - apply append_not_empty_r. discriminate.
Qed.

Lemma fallback_loop_has_text locs sentences spl todo :
  forall i acc,
    Forall has_text acc ->
    Forall has_text (fallback_loop locs sentences spl i todo acc).
Proof.
  induction todo as [|loc more IH]; intros i acc Ha; cbn [fallback_loop].
  - exact Ha.
  - apply IH. apply Forall_app. split; [exact Ha|].
    apply chunk_records_has_text.
Qed.

(** X20: every record the segmenter returns, on the primary and on the
    fallback path, has a non-empty narrative.  The primary pass flushes only
    a non-empty buffer of non-empty lines; the fallback gives every text it
    keeps a closing full stop. *)
Theorem segmenter_narratives_not_empty :
  forall (text : string) (locs : list LocationRecord),
  exists recs,
    parse_location_narratives text locs = Ok recs
    /\ Forall (fun r => narrative r <> "") recs
    /\ Forall (fun r => narrative r <> "") (primary_pass text locs)
    /\ Forall (fun r => narrative r <> "")
         (fallback_loop locs (split "." text)
            (Nat.max 1 (List.length (split "." text) / List.length locs))
            0 locs []).
Proof.
  intros text locs.
  assert (Hp := primary_pass_has_text text locs).
  assert (Hf : Forall has_text
                 (fallback_loop locs (split "." text)
                    (Nat.max 1 (List.length (split "." text) / List.length locs))
                    0 locs []))
    by (apply fallback_loop_has_text; constructor).
  eexists. split; [apply parse_location_narratives_returns|].
  split; [|split; assumption].
  destruct (runs_fallback text locs); assumption.
Qed.

(** C9, evaluated at the reply ["A:"] with the locations A and B: the
    primary pass tests the heading line after cleaning it and keeps
    nothing, so the fallback runs; the fallback tests its chunk before the
    clean-up, the clean-up then empties the text, and the chunk is not
    skipped: a record is returned whose narrative is the full stop
    alone. *)
Theorem C9_fallback_keeps_emptied_chunk :
  let locs := [named "A"; named "B"] in
  let sentences := split "." bare_heading_reply in
  clean_narrative_line bare_heading_reply "A" = ""
  /\ primary_pass bare_heading_reply locs = []
  /\ runs_fallback bare_heading_reply locs = true
  /\ chunk sentences 1 0 = ["A:"]
  /\ strip_first_heading (replace_bold (strip (join "." (chunk sentences 1 0))))
       locs = ""
  /\ chunk_records locs sentences 1 0 (named "A") = [told "A" "."]
  /\ parse_location_narratives bare_heading_reply locs = Ok [told "A" "."].
Proof. repeat split; vm_compute; reflexivity. Qed.

(** The fallback is not entered for a chunk whose joined and trimmed text is
    empty; a chunk that only the later clean-up empties still yields a
    record, whose text is the full stop. *)
Lemma chunk_records_skips_blank locs sentences spl i loc :
  strip (join "." (chunk sentences spl i)) = "" ->
  chunk_records locs sentences spl i loc = [].
Proof. intros H. unfold chunk_records. now rewrite H. Qed.

Example chunk_records_bold_only :
  parse_location_narratives "**" [named "A"] = Ok [told "A" "."].
Proof. vm_compute. reflexivity. Qed.

(** ** What can raise *)

Lemma extract_maritime_data_scalar data :
  is_container data = false ->
  primary_locations data = []
  /\ fallback_extract data "" empty_flat = empty_flat
  /\ extract_maritime_data data = mkDataset [].
Proof.
  destruct data; cbn [is_container]; intros H; try discriminate;
    repeat split; reflexivity.
Qed.

(** X21: the segmenter returns for every reply and every list of locations:
    its only raising operation, the division by [len(locations)], raises on
    the empty list and is only reached with a non-empty one. *)
Theorem segmenter_never_raises :
  forall (reply : string) (locs : list LocationRecord),
    (exists recs, parse_location_narratives reply locs = Ok recs)
    /\ sentences_per_location (split "." reply) locs
       = match locs with
         | [] => Raise ZeroDivisionError
         | _ :: _ =>
             Ok (Nat.max 1 (List.length (split "." reply) / List.length locs))
         end
    /\ (if runs_fallback reply locs then nonempty locs = true else True).
Proof.
  intros reply locs. split; [|split].
  - eexists. apply parse_location_narratives_returns.
  - destruct locs; reflexivity.
  - destruct (runs_fallback reply locs) eqn:H; [|exact I].
    unfold runs_fallback in H. now apply andb_prop in H.
Qed.

Lemma enumerate_loop_numbers item_key (r : LocationRecord) k :
  forall i m,
    enumerate_loop item_key (repeat (JNum "0") k) i (repeat r (S m))
    = repeat r (2 ^ k * S m).
Proof.
  induction k as [|k IH]; intros i m.
  - replace (2 ^ 0 * S m) with (S m) by (cbn; lia). reflexivity.
  - change (repeat (JNum "0") (S k)) with (JNum "0" :: repeat (JNum "0") k).
    cbn [enumerate_loop extract_location_data].
    unfold extend_with. change (nonempty (repeat r (S m))) with true.
    cbn iota. rewrite <- repeat_app.
    replace (S m + S m) with (S (m + S m)) by lia.
    rewrite IH. f_equal. rewrite Nat.pow_succ_r'. lia.
Qed.

Lemma qualifying_records_numbers k :
  flat_map qualifying_records (repeat (JNum "0") k) = [].
Proof. induction k as [|k IH]; [reflexivity | exact IH]. Qed.

(** C7, evaluated at [doubling_doc k], the sequence of one qualifying
    mapping and [k] numbers: the document has one qualifying node, and the
    classifier builds a list of [2 ^ k] records, because the call on each
    number returns the shared list, which is then appended to itself.  For
    [k = 40], a document of about a hundred characters, that is a list of
    [2 ^ 40] elements. *)
Theorem C7_doubling_doc_grows :
  forall k : nat,
    qualifying_records (doubling_doc k) = [record_A]
    /\ primary_locations (doubling_doc k) = repeat record_A (2 ^ k)
    /\ List.length (locations (extract_maritime_data (doubling_doc k)))
       = 2 ^ k.
Proof.
  intros k.
  assert (Hp : primary_locations (doubling_doc k) = repeat record_A (2 ^ k)).
  { unfold primary_locations, doubling_doc.
    rewrite extract_location_data_list. cbn [snd enumerate_loop].
    change (extract_location_data
              (JDict [("name", JStr "A"); ("wind", JStr "x")])
              (list_item_key "" 0) [])
      with (FreshEmpty, [record_A]).
    cbn [extend_with].
    change [record_A] with (repeat record_A 1).
    rewrite enumerate_loop_numbers. f_equal. lia. }
  split; [|split; [exact Hp|]].
  - unfold doubling_doc.
    change (qualifying_records
              (JList (JDict [("name", JStr "A"); ("wind", JStr "x")]
                      :: repeat (JNum "0") k)))
      with (qualifying_records
              (JDict [("name", JStr "A"); ("wind", JStr "x")])
            ++ flat_map qualifying_records (repeat (JNum "0") k)).
    rewrite qualifying_records_numbers, app_nil_r.
    vm_compute. reflexivity.
  - unfold extract_maritime_data. rewrite Hp.
    assert (Hpos : 2 ^ k <> 0) by (apply Nat.pow_nonzero; lia).
    destruct (2 ^ k) as [|m] eqn:E; [contradiction|].
    cbn [repeat nonempty negb locations].
    change (record_A :: repeat record_A m) with (repeat record_A (S m)).
    apply repeat_length.
Qed.

(** ** The sentence-split fallback *)












(** The five sentences give ["one. two."] to the first location and
    ["three. four."] to the second; the fifth sentence reaches no record. *)
Example five_sentences_records :
  parse_location_narratives five_sentences [named "A"; named "B"]
  = Ok [told "A" "one. two."; told "B" "three. four."].
Proof. vm_compute. reflexivity. Qed.

(** ** Mappings under a weather or wave key *)

Lemma sub_facts_children sub :
  sub_facts sub = map child_fact (filter is_fact_child sub).
Proof.
  induction sub as [|[k v] rest IH]; [reflexivity|].
  destruct v; cbn [sub_facts filter is_fact_child snd]; try exact IH.
  destruct (truthy (strip s)); [|exact IH].
  cbn [map]. now rewrite IH.
Qed.

Lemma filter_fact_child_idem sub :
  filter is_fact_child (filter is_fact_child sub) = filter is_fact_child sub.
Proof.
  induction sub as [|kv rest IH]; [reflexivity|].
  cbn [filter]. destruct (is_fact_child kv) eqn:H; [|exact IH].
  cbn [filter]. now rewrite H, IH.
Qed.

Lemma sub_facts_pruned sub :
  sub_facts (filter is_fact_child sub) = sub_facts sub.
Proof. now rewrite !sub_facts_children, filter_fact_child_idem. Qed.

(** A mapping under a weather or wave key is flattened in one step: the
    node gains the facts of the children, and neither the location name nor
    the shared list changes. *)
Lemma items_step_fact_key parent_key key sub nd locs :
  fact_key key = true ->
  items_step parent_key key (JDict sub) nd locs
  = (if any_keyword WEATHER_KEYWORDS (lower key)
     then mkNode (location_name nd)
            (weather_data nd ++ map child_fact (filter is_fact_child sub))
            (wave_data nd)
     else mkNode (location_name nd) (weather_data nd)
            (wave_data nd ++ map child_fact (filter is_fact_child sub)),
     locs).
Proof.
  unfold fact_key. intros H. cbn [items_step].
  rewrite <- sub_facts_children.
  destruct (any_keyword WEATHER_KEYWORDS (lower key)); [reflexivity|].
  cbn [orb] in H. now rewrite H.
Qed.

Lemma items_step_nested parent_key key value nd locs :
  (exists sub, value = JDict sub) ->
  any_keyword WEATHER_KEYWORDS (lower key) = false ->
  any_keyword WAVE_KEYWORDS (lower key) = false ->
  items_step parent_key key value nd locs
  = let '(nested_result, locs1) :=
      extract_location_data value (dict_child_key parent_key key) locs in
    (nd, extend_with nested_result locs1).
Proof.
  intros [sub ->] Hw Hv. cbn [items_step]. now rewrite Hw, Hv.
Qed.

Lemma extract_location_data_pruned :
  forall (doc : json) (parent_key : string) (locs : list LocationRecord),
    extract_location_data (prune_facts doc) parent_key locs
    = extract_location_data doc parent_key locs.
Proof.
  intros doc.
  enough (H : (forall parent_key locs,
                 extract_location_data (prune_facts doc) parent_key locs
                 = extract_location_data doc parent_key locs)
              /\ match doc with
                 | JList items =>
                     forall item_key i locs,
                       enumerate_loop item_key (map prune_facts items) i locs
                       = enumerate_loop item_key items i locs
                 | _ => True
                 end) by apply H.
  induction doc as [| | | |items IH|d IH] using json_nested_ind;
    try (split; [reflexivity | exact I]).
  - assert (He : forall item_key i locs,
               enumerate_loop item_key (map prune_facts items) i locs
               = enumerate_loop item_key items i locs).
    { intros item_key. induction IH as [|item more [Hitem _] _ IHm];
        intros i locs; [reflexivity|].
      cbn [map enumerate_loop]. rewrite Hitem.
      destruct (extract_location_data item (item_key i) locs) as [r locs1].
      apply IHm. }
    split; [|exact He].
    intros parent_key locs. cbn [prune_facts].
    now rewrite !extract_location_data_list, He.
  - split; [|exact I].
    intros parent_key locs. cbn [prune_facts].
    rewrite !extract_location_data_dict.
    enough (Hl : forall nd locs,
               items_loop parent_key
                 (map (fun kv =>
                         match snd kv with
                         | JDict sub =>
                             if fact_key (fst kv)
                             then (fst kv, JDict (filter is_fact_child sub))
                             else (fst kv, prune_facts (snd kv))
                         | JList items =>
                             (fst kv, JList (map prune_facts items))
                         | _ => kv
                         end) d) nd locs
               = items_loop parent_key d nd locs) by now rewrite Hl.
    clear locs.
    induction IH as [|[key value] rest [Hv Hitems] _ IHr]; intros nd locs;
      [reflexivity|].
    cbn [map snd fst] in *.
    destruct value; cbn [items_loop items_step]; try apply IHr.
    + destruct (truthy (strip s)); apply IHr.
    + rewrite Hitems. apply IHr.
    + unfold fact_key.
      destruct (any_keyword WEATHER_KEYWORDS (lower key)) eqn:Hw;
        cbn [orb items_loop items_step].
      * rewrite Hw, sub_facts_pruned. apply IHr.
      * destruct (any_keyword WAVE_KEYWORDS (lower key)) eqn:Hv';
          cbn [items_loop].
        -- cbn [items_step]. rewrite Hw, Hv', sub_facts_pruned. apply IHr.
        -- rewrite (items_step_nested parent_key key (prune_facts (JDict pairs)))
             by (try (eexists; reflexivity); assumption).
           rewrite Hv.
           destruct (extract_location_data (JDict pairs) _ locs) as [r locs1].
           apply IHr.
Qed.

Corollary primary_locations_same_pruning doc1 doc2 :
  prune_facts doc1 = prune_facts doc2 ->
  primary_locations doc1 = primary_locations doc2.
Proof.
  intros H. unfold primary_locations.
  rewrite <- (extract_location_data_pruned doc1),
          <- (extract_location_data_pruned doc2).
  now rewrite H.
Qed.

(** The nested mapping, the sequence, the number and the blank string under
    ["weather"] leave no trace: neither a fact nor a location of their
    own. *)
Example primary_locations_cluttered :
  primary_locations cluttered_doc = [mkLocation "A" ["wind: x"] []]
  /\ prune_facts cluttered_doc
     = JDict [("site",
               JDict [("name", JStr "A");
                      ("weather", JDict [("wind", JStr "x")])])].
Proof. split; vm_compute; reflexivity. Qed.

Lemma items_loop_node parent_key d :
  forall nd locs,
    fst (items_loop parent_key d nd locs)
    = fold_left (fun nd kv => own_step (fst kv) (snd kv) nd) d nd.
Proof.
  induction d as [|[key value] rest IH]; intros nd locs; [reflexivity|].
  cbn [items_loop fold_left fst snd].
  pose proof (items_step_node parent_key key value nd locs) as Hn.
  destruct (items_step parent_key key value nd locs) as [nd1 locs1].
  cbn [fst] in Hn. subst nd1. apply IH.
Qed.

(** What one pair adds to the two fact lists of its node. *)
Lemma own_step_parts key value nd :
  weather_data (own_step key value nd)
  = weather_data nd ++ weather_part (key, value)
  /\ wave_data (own_step key value nd)
     = wave_data nd ++ wave_part (key, value).
Proof.
  unfold weather_part, wave_part. cbn [fst snd].
  destruct value; cbn [own_step]; try (now rewrite !app_nil_r).
  - destruct (truthy (strip s)); cbn [andb]; [|now rewrite !app_nil_r].
    unfold classify_string.
    destruct (any_keyword WAYPOINT_KEYWORDS (lower key)); cbn [negb andb];
      [now rewrite !app_nil_r|].
    destruct (any_keyword WEATHER_KEYWORDS (lower key)); cbn [negb andb];
      [cbn; now rewrite app_nil_r|].
    destruct (any_keyword WAVE_KEYWORDS (lower key));
      cbn; now rewrite ?app_nil_r.
  - rewrite sub_facts_children.
    destruct (any_keyword WEATHER_KEYWORDS (lower key)); cbn [negb andb];
      [cbn; now rewrite app_nil_r|].
    destruct (any_keyword WAVE_KEYWORDS (lower key));
      cbn; now rewrite ?app_nil_r.
Qed.

Lemma own_facts_parts d :
  weather_data (own_facts d) = flat_map weather_part d
  /\ wave_data (own_facts d) = flat_map wave_part d.
Proof.
  unfold own_facts.
  enough (H : forall nd,
             weather_data
               (fold_left (fun nd kv => own_step (fst kv) (snd kv) nd) d nd)
             = weather_data nd ++ flat_map weather_part d
             /\ wave_data
                  (fold_left (fun nd kv => own_step (fst kv) (snd kv) nd) d nd)
                = wave_data nd ++ flat_map wave_part d)
    by apply (H empty_node).
  induction d as [|[key value] rest IH]; intros nd.
  - cbn. now rewrite !app_nil_r.
  - cbn [fold_left flat_map fst snd].
    destruct (IH (own_step key value nd)) as [Hw Hv].
    destruct (own_step_parts key value nd) as [Hw1 Hv1].
    rewrite Hw, Hv, Hw1, Hv1. now rewrite !app_assoc.
Qed.

(** What a call on a mapping node returns, with the fact lists of the node
    written out pair by pair. *)
Lemma extract_location_data_node d parent_key locs :
  exists locs1,
    extract_location_data (JDict d) parent_key locs
    = match location_name (own_facts d) with
      | Some n =>
          if truthy n
             && (nonempty (flat_map weather_part d)
                 || nonempty (flat_map wave_part d))
          then (FreshEmpty,
                locs1 ++ [mkLocation n (flat_map weather_part d)
                                     (flat_map wave_part d)])
          else (SharedLocations, locs1)
      | None => (SharedLocations, locs1)
      end.
Proof.
  exists (snd (items_loop parent_key d empty_node locs)).
  rewrite extract_location_data_dict.
  pose proof (items_loop_node parent_key d empty_node locs) as Hn.
  fold (own_facts d) in Hn.
  destruct (items_loop parent_key d empty_node locs) as [nd locs1].
  cbn [fst snd] in *. subst nd.
  destruct (own_facts_parts d) as [Hw Hv].
  unfold finish_node. now rewrite Hw, Hv.
Qed.

(** C10: in the primary classifier a mapping under a weather or wave key
    contributes exactly the facts of its immediate children that are
    non-blank strings, named by the child's key; its other children (nested
    mappings, sequences, non-string leaves) are not visited: deleting them
    from every such mapping, at any depth of the document, leaves the shared
    list, the returned value and hence every LocationRecord unchanged.
    These facts do reach the records: the record a call on a mapping node
    appends carries, pair by pair, the facts of the node's own non-blank
    strings and, for each mapping under a weather or wave key, the facts of
    its non-blank string children; and the records of the qualifying nodes,
    at any depth, are exactly the records the classifier returns. *)
Theorem C10_flattened_mapping_children :
  forall (doc : json) (parent_key key : string) (sub : list (string * json))
         (nd : node) (locs : list LocationRecord)
         (d : list (string * json)),
    sub_facts sub = map child_fact (filter is_fact_child sub)
    /\ (if fact_key key
        then items_step parent_key key (JDict sub) nd locs
             = (if any_keyword WEATHER_KEYWORDS (lower key)
                then mkNode (location_name nd)
                       (weather_data nd
                        ++ map child_fact (filter is_fact_child sub))
                       (wave_data nd)
                else mkNode (location_name nd) (weather_data nd)
                       (wave_data nd
                        ++ map child_fact (filter is_fact_child sub)),
                locs)
        else True)
    /\ extract_location_data (prune_facts doc) parent_key locs
       = extract_location_data doc parent_key locs
    /\ primary_locations (prune_facts doc) = primary_locations doc
    /\ (exists locs1,
          extract_location_data (JDict d) parent_key locs
          = match location_name (own_facts d) with
            | Some n =>
                if truthy n
                   && (nonempty (flat_map weather_part d)
                       || nonempty (flat_map wave_part d))
                then (FreshEmpty,
                      locs1 ++ [mkLocation n (flat_map weather_part d)
                                           (flat_map wave_part d)])
                else (SharedLocations, locs1)
            | None => (SharedLocations, locs1)
            end)
    /\ weather_part (key, JDict sub)
       = (if any_keyword WEATHER_KEYWORDS (lower key)
          then map child_fact (filter is_fact_child sub) else [])
    /\ wave_part (key, JDict sub)
       = (if negb (any_keyword WEATHER_KEYWORDS (lower key))
             && any_keyword WAVE_KEYWORDS (lower key)
          then map child_fact (filter is_fact_child sub) else [])
    /\ own_record d
       = match location_name (own_facts d) with
         | Some n =>
             if truthy n
                && (nonempty (flat_map weather_part d)
                    || nonempty (flat_map wave_part d))
             then [mkLocation n (flat_map weather_part d)
                              (flat_map wave_part d)]
             else []
         | None => []
         end
    /\ (forall x, In x (primary_locations doc)
                  <-> In x (qualifying_records doc)).
Proof.
  intros doc parent_key key sub nd locs d.
  split; [apply sub_facts_children|].
  split.
  { destruct (fact_key key) eqn:Hk; [|exact I].
    now apply items_step_fact_key. }
  split; [apply extract_location_data_pruned|].
  split.
  { unfold primary_locations. now rewrite extract_location_data_pruned. }
  split; [apply extract_location_data_node|].
  split; [reflexivity|]. split; [reflexivity|].
  split.
  { unfold own_record. destruct (own_facts_parts d) as [Hw Hv].
    now rewrite Hw, Hv. }
  apply primary_locations_In.
Qed.

(** A location whose weather mapping and wave mapping each hold text next
    to nested values: the record carries the two facts and nothing of the
    nested values. *)
Example nested_facts_reach_the_record :
  extract_location_data
    (JDict [("name", JStr "A");
            ("weather", JDict [("wind", JStr " x ");
                               ("more", JDict [("wind", JStr "y")])]);
            ("sea", JDict [("swell", JStr "z"); ("log", JList [JStr "w"])])])
    "" []
  = (FreshEmpty, [mkLocation "A" ["wind: x"] ["swell: z"]]).
Proof. vm_compute. reflexivity. Qed.

(** ** Facts about the string operations *)

Section StringFacts.

Lemma lower_app a b : lower (a ++ b) = (lower a ++ lower b)%string.
Proof. induction a as [|c a IH]; cbn; [reflexivity | now rewrite IH]. Qed.

Lemma startswith_app p r : startswith p (p ++ r) = true.
Proof.
  induction p as [|c p IH]; cbn; [reflexivity|].
  now rewrite Ascii.eqb_refl, IH.
Qed.

Lemma contains_startswith p s : startswith p s = true -> contains p s = true.
Proof. intros H. destruct s; cbn; now rewrite H. Qed.

Lemma contains_app_l p r : contains p (p ++ r) = true.
Proof. apply contains_startswith, startswith_app. Qed.

Lemma contains_lower_app_l p r : contains (lower p) (lower (p ++ r)) = true.
Proof. rewrite lower_app. apply contains_app_l. Qed.

Lemma startswith_lower_app_l p r :
  startswith (lower p) (lower (p ++ r)) = true.
Proof. rewrite lower_app. apply startswith_app. Qed.

Lemma drop_app a b : drop (String.length a) (a ++ b) = b.
Proof. induction a as [|c a IH]; cbn; [now destruct b | exact IH]. Qed.

Lemma length_lstrip s : String.length (lstrip s) <= String.length s.
Proof.
  induction s as [|c s IH]; cbn; [lia|].
  destruct (isspace c); cbn; lia.
Qed.

Lemma length_rstrip s : String.length (rstrip s) <= String.length s.
Proof.
  induction s as [|c s IH]; cbn; [lia|].
  destruct (rstrip s); [destruct (isspace c)|]; cbn in *; lia.
Qed.

(** A trimmed, non-empty string starts with a character that is not
    white space. *)
Lemma strip_fixed_head c r :
  strip (String c r) = String c r -> isspace c = false.
Proof.
  unfold strip. cbn [lstrip]. intros H.
  destruct (isspace c); [|reflexivity].
  pose proof (length_rstrip (lstrip r)) as H1.
  pose proof (length_lstrip r) as H2.
  rewrite H in H1. cbn in H1. lia.
Qed.

Lemma lstrip_head c r : isspace c = false -> lstrip (String c r) = String c r.
Proof. intros H. cbn. now rewrite H. Qed.

Lemma rstrip_app_keep a b :
  b <> "" -> rstrip b = b -> rstrip (a ++ b) = (a ++ b)%string.
Proof.
  intros Hb Hr. induction a as [|c a IH]; cbn; [exact Hr|].
  rewrite IH. destruct (a ++ b)%string eqn:E; [|reflexivity].
  destruct a; cbn in E; [contradiction | discriminate].
Qed.

(** A text that starts with a non-space character and ends with a
    trimmed, non-empty suffix is left alone by [strip]. *)
Lemma strip_keep c r b :
  isspace c = false -> b <> "" -> rstrip b = b ->
  strip (String c r ++ b) = (String c r ++ b)%string.
Proof.
  intros Hc Hb Hr. unfold strip.
  change (String c r ++ b)%string with (String c (r ++ b)).
  rewrite lstrip_head by exact Hc.
  change (String c (r ++ b)) with (String c r ++ b)%string.
  now apply rstrip_app_keep.
Qed.

Lemma contains_char_cons ch c s :
  contains (String ch "") (String c s)
  = Ascii.eqb ch c || contains (String ch "") s.
Proof. cbn. now rewrite andb_true_r. Qed.

Lemma contains_char_app ch a b :
  contains (String ch "") (a ++ b)
  = contains (String ch "") a || contains (String ch "") b.
Proof.
  induction a as [|c a IH].
  - cbn. reflexivity.
  - change (String c a ++ b)%string with (String c (a ++ b)).
    rewrite !contains_char_cons, IH. now rewrite orb_assoc.
Qed.

Lemma split_absent ch s :
  contains (String ch "") s = false -> split ch s = [s].
Proof.
  induction s as [|c s IH]; [reflexivity|].
  rewrite contains_char_cons. intros H.
  apply orb_false_elim in H as [Hc Hs].
  cbn. rewrite Ascii.eqb_sym, Hc, (IH Hs). reflexivity.
Qed.

Lemma split_app_sep ch a b :
  contains (String ch "") a = false ->
  split ch (a ++ String ch b) = a :: split ch b.
Proof.
  induction a as [|c a IH]; intros H.
  - cbn. now rewrite Ascii.eqb_refl.
  - rewrite contains_char_cons in H.
    apply orb_false_elim in H as [Hc Ha].
    cbn. rewrite Ascii.eqb_sym, Hc, (IH Ha). reflexivity.
Qed.

Lemma replace_bold_cons c s :
  Ascii.eqb c "*" = false ->
  replace_bold (String c s) = String c (replace_bold s).
Proof. intros H. destruct s; cbn; [reflexivity | now rewrite H]. Qed.

Lemma replace_bold_step c c' r :
  replace_bold (String c (String c' r))
  = if Ascii.eqb c "*" && Ascii.eqb c' "*" then replace_bold r
    else String c (replace_bold (String c' r)).
Proof. reflexivity. Qed.

(** Text without the marker, followed by text that does not start with an
    asterisk, keeps its first part. *)
Lemma replace_bold_app_name a b :
  contains "**" a = false -> startswith "*" b = false ->
  replace_bold (a ++ b) = (a ++ replace_bold b)%string.
Proof.
  intros Ha Hb. induction a as [|c a IH]; [reflexivity|].
  cbn [contains] in Ha. apply orb_false_elim in Ha as [Hs Ha].
  specialize (IH Ha).
  destruct a as [|c' a].
  - destruct b as [|x b]; [reflexivity|].
    cbn [startswith] in Hb. rewrite andb_true_r in Hb.
    change (String c "" ++ String x b)%string with (String c (String x b)).
    rewrite replace_bold_step, (Ascii.eqb_sym x), Hb, andb_false_r.
    reflexivity.
  - cbn [startswith] in Hs. rewrite andb_true_r in Hs.
    change ((String c (String c' a)) ++ b)%string
      with (String c (String c' (a ++ b))).
    rewrite replace_bold_step, (Ascii.eqb_sym c), (Ascii.eqb_sym c' "*"), Hs.
    change (String c' (a ++ b)) with (String c' a ++ b)%string.
    now rewrite IH.
Qed.

Lemma lstrip_char_eq ch r : lstrip_char ch (String ch r) = lstrip_char ch r.
Proof. cbn. now rewrite Ascii.eqb_refl. Qed.

Lemma lstrip_char_ne ch c r :
  Ascii.eqb c ch = false -> lstrip_char ch (String c r) = String c r.
Proof. intros H. cbn. now rewrite H. Qed.

Lemma lstrip_space c r : isspace c = true -> lstrip (String c r) = lstrip r.
Proof. intros H. cbn. now rewrite H. Qed.

(** The heading ["{name}: "] is removed in front of a text that starts
    with neither white space nor a colon. *)
Lemma strip_heading_colon nm c body :
  isspace c = false -> Ascii.eqb c ":" = false ->
  strip_heading (nm ++ String ":" (String " " (String c body))) nm
  = String c body.
Proof.
  intros Hs Hc. unfold strip_heading. rewrite drop_app.
  rewrite lstrip_char_eq.
  rewrite (lstrip_char_ne ":" " ") by reflexivity.
  rewrite (lstrip_char_ne "-" " ") by reflexivity.
  rewrite (lstrip_space " ") by reflexivity.
  rewrite lstrip_head by exact Hs.
  rewrite lstrip_char_ne by exact Hc.
  now apply lstrip_head.
Qed.

End StringFacts.

(** ** The round trip through the segmenter *)

Section RoundTrip.

Lemma append_assoc_str a b c : ((a ++ b) ++ c = a ++ (b ++ c))%string.
Proof. induction a as [|x a IH]; cbn; [reflexivity | now rewrite IH]. Qed.

(** A literal text without asterisks is kept, whatever follows. *)
Lemma replace_bold_app_plain a b :
  contains "*" a = false ->
  replace_bold (a ++ b) = (a ++ replace_bold b)%string.
Proof.
  induction a as [|c a IH]; intros H; [reflexivity|].
  rewrite contains_char_cons in H. apply orb_false_elim in H as [Hc Ha].
  change (String c a ++ b)%string with (String c (a ++ b)).
  rewrite replace_bold_cons by (now rewrite Ascii.eqb_sym).
  now rewrite (IH Ha).
Qed.

(** Cleaning a heading line ["{name}: {text}"] leaves the text. *)
Lemma clean_heading_line nm c body :
  contains "**" nm = false ->
  isspace c = false -> Ascii.eqb c ":" = false ->
  replace_bold (String c body) = String c body ->
  strip (String c body) = String c body ->
  clean_narrative_line (nm ++ String ":" (String " " (String c body))) nm
  = String c body.
Proof.
  intros Hb Hs Hc Hr Ht. unfold clean_narrative_line.
  rewrite replace_bold_app_name by (exact Hb || reflexivity).
  rewrite (replace_bold_cons ":") by reflexivity.
  rewrite (replace_bold_cons " ") by reflexivity.
  rewrite Hr, startswith_lower_app_l, strip_heading_colon by assumption.
  exact Ht.
Qed.

(** A line that is already trimmed and names a location opens a section. *)
Lemma line_step_heading locs st line nm :
  strip line = line -> line <> "" -> nm <> "" ->
  find_location line locs = Some nm ->
  line_step locs st line
  = mkSeg (Some nm)
      (if truthy (clean_narrative_line line nm)
       then [clean_narrative_line line nm] else [])
      (flush st).
Proof.
  intros Hs Hl Hn Hf. unfold line_step.
  rewrite Hs, Hf. cbn [option_truthy].
  apply truthy_true in Hl, Hn. now rewrite Hl, Hn.
Qed.

Variables l1 l2 : LocationRecord.
Let name1 := name l1.
Let name2 := name l2.

Hypothesis name1_not_empty : name1 <> "".
Hypothesis name1_trimmed : strip name1 = name1.
Hypothesis name1_one_line : contains newline name1 = false.
Hypothesis name2_one_line : contains newline name2 = false.
Hypothesis name1_not_bold : contains "**" name1 = false.
Hypothesis name2_not_bold : contains "**" name2 = false.

Lemma name_head nm :
  nm <> "" -> strip nm = nm -> exists c r, nm = String c r /\ isspace c = false.
Proof.
  intros Hn Ht. destruct nm as [|c r]; [contradiction|].
  exists c, r. split; [reflexivity|]. exact (strip_fixed_head c r Ht).
Qed.

(** The text that follows the first heading of the one-line reply. *)
Let rest1 : string := "sentence one. " ++ name2 ++ ": sentence two.".

Lemma round_trip_reply_shape :
  round_trip_reply name1 name2
  = (name1 ++ String ":" (String " " rest1))%string.
Proof. reflexivity. Qed.

Lemma rest1_not_bold : replace_bold rest1 = rest1.
Proof.
  unfold rest1.
  rewrite replace_bold_app_plain by reflexivity.
  rewrite replace_bold_app_name by (exact name2_not_bold || reflexivity).
  reflexivity.
Qed.

Lemma rest1_trimmed : strip rest1 = rest1.
Proof.
  unfold rest1.
  change ("sentence one. " ++ name2 ++ ": sentence two.")%string
    with (String "s" "entence one. " ++ (name2 ++ ": sentence two."))%string.
  rewrite <- append_assoc_str.
  change (String "s" "entence one. " ++ name2)%string
    with (String "s" ("entence one. " ++ name2)).
  apply strip_keep; [reflexivity | discriminate | reflexivity].
Qed.

Lemma round_trip_reply_trimmed :
  strip (round_trip_reply name1 name2) = round_trip_reply name1 name2.
Proof.
  destruct (name_head name1 name1_not_empty name1_trimmed)
    as (c & r & E & Hc).
  unfold round_trip_reply. rewrite E.
  rewrite <- !append_assoc_str.
  change (((String c r ++ ": sentence one. ") ++ name2)%string)
    with (String c ((r ++ ": sentence one. ") ++ name2)).
  apply strip_keep; [exact Hc | discriminate | reflexivity].
Qed.

Lemma round_trip_reply_one_line :
  split "010" (round_trip_reply name1 name2)
  = [round_trip_reply name1 name2].
Proof.
  pose proof name1_one_line as H1. pose proof name2_one_line as H2.
  unfold newline in H1, H2.
  apply split_absent. unfold round_trip_reply.
  rewrite !contains_char_app, H1, H2.
  reflexivity.
Qed.

Lemma round_trip_reply_not_empty : round_trip_reply name1 name2 <> "".
Proof.
  unfold round_trip_reply. destruct name1; [contradiction | discriminate].
Qed.

Lemma primary_pass_round_trip_reply :
  primary_pass (round_trip_reply name1 name2) [l1; l2]
  = [told name1 rest1].
Proof.
  unfold primary_pass.
  rewrite round_trip_reply_trimmed, round_trip_reply_one_line.
  cbn [fold_left].
  rewrite (line_step_heading _ _ _ name1);
    [ | exact round_trip_reply_trimmed | exact round_trip_reply_not_empty
      | exact name1_not_empty | ].
  - rewrite round_trip_reply_shape.
    change rest1
      with (String "s" ("entence one. " ++ name2 ++ ": sentence two.")).
    rewrite clean_heading_line;
      [ | exact name1_not_bold | reflexivity | reflexivity
        | exact rest1_not_bold | exact rest1_trimmed ].
    unfold flush. cbn [current_location current_narrative emitted truthy].
    destruct name1 eqn:E; [contradiction|]. reflexivity.
  - cbn [find_location]. fold name1.
    unfold round_trip_reply. now rewrite contains_lower_app_l.
Qed.

End RoundTrip.

Section RoundTripLines.

Variables l1 l2 : LocationRecord.
Let name1 := name l1.
Let name2 := name l2.

Hypothesis name1_not_empty : name1 <> "".
Hypothesis name2_not_empty : name2 <> "".
Hypothesis name1_trimmed : strip name1 = name1.
Hypothesis name2_trimmed : strip name2 = name2.
Hypothesis name1_one_line : contains newline name1 = false.
Hypothesis name2_one_line : contains newline name2 = false.
Hypothesis name1_not_bold : contains "**" name1 = false.
Hypothesis name2_not_bold : contains "**" name2 = false.
Hypothesis name1_not_in_line2 :
  contains (lower name1) (lower (name2 ++ ": sentence two.")) = false.

(** A heading line ["{name}: sentence {k}."] is trimmed, is one line and
    cleans to its sentence. *)
Lemma heading_line_trimmed nm tail :
  nm <> "" -> strip nm = nm -> tail <> "" -> rstrip tail = tail ->
  strip (nm ++ tail) = (nm ++ tail)%string.
Proof.
  intros Hn Ht Hl Hr.
  destruct (name_head nm Hn Ht) as (c & r & -> & Hc).
  now apply strip_keep.
Qed.

Lemma two_line_reply_shape :
  two_line_reply name1 name2
  = ((name1 ++ ": sentence one.")
     ++ String "010" (name2 ++ ": sentence two."))%string.
Proof.
  unfold two_line_reply, newline. rewrite append_assoc_str. reflexivity.
Qed.

Lemma two_line_reply_lines :
  split "010" (strip (two_line_reply name1 name2))
  = [(name1 ++ ": sentence one.")%string;
     (name2 ++ ": sentence two.")%string].
Proof.
  pose proof name1_one_line as H1. pose proof name2_one_line as H2.
  unfold newline in H1, H2.
  assert (Hs : strip (two_line_reply name1 name2)
               = two_line_reply name1 name2).
  { unfold two_line_reply.
    apply heading_line_trimmed;
      [exact name1_not_empty | exact name1_trimmed | discriminate |].
    rewrite <- !append_assoc_str.
    apply rstrip_app_keep; [discriminate | reflexivity]. }
  rewrite Hs, two_line_reply_shape.
  rewrite split_app_sep by (now rewrite contains_char_app, H1).
  rewrite split_absent by (now rewrite contains_char_app, H2).
  reflexivity.
Qed.

Lemma line_step_section locs st nm c body :
  nm <> "" -> strip nm = nm -> contains "**" nm = false ->
  isspace c = false -> Ascii.eqb c ":" = false ->
  replace_bold (String c body) = String c body ->
  strip (String c body) = String c body ->
  find_location (nm ++ String ":" (String " " (String c body))) locs
  = Some nm ->
  line_step locs st (nm ++ String ":" (String " " (String c body)))
  = mkSeg (Some nm) [String c body] (flush st).
Proof.
  intros Hn Ht Hb Hs Hc Hr Hk Hf.
  rewrite (line_step_heading locs st _ nm); [ | | | exact Hn | exact Hf].
  - now rewrite clean_heading_line.
  - apply heading_line_trimmed; [exact Hn | exact Ht | discriminate |].
    change (String ":" (String " " (String c body)))
      with (": " ++ String c body)%string.
    apply rstrip_app_keep; [discriminate|].
    unfold strip in Hk. rewrite lstrip_head in Hk by exact Hs. exact Hk.
  - destruct nm; [contradiction | discriminate].
Qed.

Lemma primary_pass_two_line_reply :
  primary_pass (two_line_reply name1 name2) [l1; l2]
  = [told name1 "sentence one."; told name2 "sentence two."].
Proof.
  unfold primary_pass. rewrite two_line_reply_lines.
  cbn [fold_left].
  change (name1 ++ ": sentence one.")%string
    with (name1 ++ String ":" (String " " (String "s" "entence one.")))%string.
  change (name2 ++ ": sentence two.")%string
    with (name2 ++ String ":" (String " " (String "s" "entence two.")))%string.
  rewrite (line_step_section [l1; l2] seg_init name1);
    try reflexivity; try assumption.
  - rewrite (line_step_section [l1; l2] _ name2);
      try reflexivity; try assumption.
    + unfold flush.
      cbn [current_location current_narrative emitted nonempty join concat].
      apply truthy_true in name1_not_empty, name2_not_empty.
      rewrite name1_not_empty, name2_not_empty. reflexivity.
    + cbn [find_location]. fold name1 name2.
      change (name2 ++ String ":" (String " " (String "s" "entence two.")))%string
        with (name2 ++ ": sentence two.")%string.
      now rewrite name1_not_in_line2, contains_lower_app_l.
  - cbn [find_location]. fold name1. now rewrite contains_lower_app_l.
Qed.

End RoundTripLines.

(** C2, as stated, fails: the reply is one line, so the line-oriented pass
    opens one section, for the first name, and the second heading stays in
    its text. *)
Lemma C2_alpha_beta_one_record :
  let name1 := "Alpha" in
  let name2 := "Beta" in
  name1 <> name2 /\ name1 <> "" /\ name2 <> ""
  /\ contains name1 name2 = false /\ contains name2 name1 = false
  /\ contains "." name1 = false /\ contains "." name2 = false
  /\ contains newline name1 = false /\ contains newline name2 = false
  /\ parse_location_narratives (round_trip_reply name1 name2)
       [named name1; named name2]
     = Ok [told "Alpha" "sentence one. Beta: sentence two."]
  /\ parse_location_narratives (round_trip_reply name1 name2)
       [named name1; named name2]
     <> Ok [told name1 "sentence one."; told name2 "sentence two."].
Proof.
  cbv zeta. repeat split; try discriminate; vm_compute; reflexivity.
Qed.

(** C2, amended: for location names that are non-empty, trimmed and free of
    line breaks and of the bold marker, the one-line reply
    ["{name1}: sentence one. {name2}: sentence two."] yields exactly one
    record, for [name1], whose text is everything after the first heading.
    The two records of the round trip are returned when the two sections
    stand on separate lines and [name1] does not occur in the second
    line. *)
Theorem C2_round_trip :
  forall l1 l2 : LocationRecord,
    name l1 <> "" ->
    strip (name l1) = name l1 ->
    contains newline (name l1) = false ->
    contains newline (name l2) = false ->
    contains "**" (name l1) = false ->
    contains "**" (name l2) = false ->
    parse_location_narratives (round_trip_reply (name l1) (name l2)) [l1; l2]
    = Ok [told (name l1)
            ("sentence one. " ++ name l2 ++ ": sentence two.")]
    /\ (name l2 <> "" ->
        strip (name l2) = name l2 ->
        contains (lower (name l1)) (lower (name l2 ++ ": sentence two."))
        = false ->
        parse_location_narratives (two_line_reply (name l1) (name l2))
          [l1; l2]
        = Ok [told (name l1) "sentence one.";
              told (name l2) "sentence two."]).
Proof.
  intros l1 l2 Hn1 Ht1 Hl1 Hl2 Hb1 Hb2. split.
  - rewrite parse_location_narratives_returns.
    unfold runs_fallback.
    now rewrite primary_pass_round_trip_reply.
  - intros Hn2 Ht2 Habs.
    rewrite parse_location_narratives_returns.
    unfold runs_fallback.
    now rewrite primary_pass_two_line_reply.
Qed.

Lemma C2_round_trip_witness :
  parse_location_narratives (round_trip_reply "Alpha" "Beta")
    [named "Alpha"; named "Beta"]
  = Ok [told "Alpha" "sentence one. Beta: sentence two."]
  /\ parse_location_narratives (two_line_reply "Alpha" "Beta")
       [named "Alpha"; named "Beta"]
     = Ok [told "Alpha" "sentence one."; told "Beta" "sentence two."].
Proof.
  destruct (C2_round_trip (named "Alpha") (named "Beta")) as [H1 H2];
    try reflexivity; try discriminate.
  split; [exact H1|].
  apply H2; [discriminate | reflexivity | reflexivity].
Defined.

(** * Further properties of the pipeline *)

(** ** More facts about the string operations *)

Lemma lstrip_cases s :
  lstrip s = "" \/ exists c r, lstrip s = String c r /\ isspace c = false.
Proof.
  induction s as [|c s IH]; [now left|].
  cbn. destruct (isspace c) eqn:Hc; [exact IH|].
  right. now exists c, s.
Qed.

Lemma rstrip_cons c r :
  rstrip (String c r)
  = match rstrip r with
    | EmptyString => if isspace c then EmptyString else String c EmptyString
    | String _ _ as r' => String c r'
    end.
Proof. reflexivity. Qed.

Lemma rstrip_idem s : rstrip (rstrip s) = rstrip s.
Proof.
  induction s as [|c s IH]; [reflexivity|].
  rewrite rstrip_cons. destruct (rstrip s) as [|x t] eqn:E.
  - destruct (isspace c) eqn:Hc; [reflexivity|].
    cbn. now rewrite Hc.
  - rewrite rstrip_cons, IH. reflexivity.
Qed.

Lemma rstrip_head c r :
  isspace c = false -> exists r', rstrip (String c r) = String c r'.
Proof.
  intros Hc. cbn [rstrip]. destruct (rstrip r) as [|x t].
  - rewrite Hc. now exists "".
  - now exists (String x t).
Qed.

(** [strip] is idempotent. *)
Lemma strip_idem s : strip (strip s) = strip s.
Proof.
  unfold strip.
  destruct (lstrip_cases s) as [E | (c & r & E & Hc)]; rewrite E.
  - reflexivity.
  - destruct (rstrip_head c r Hc) as [r' Er].
    rewrite Er. rewrite (lstrip_head c r' Hc).
    rewrite <- Er. apply rstrip_idem.
Qed.

Lemma trimmed_strip s : trimmed (strip s).
Proof. apply strip_idem. Qed.

Lemma trimmed_rstrip c r : trimmed (String c r) -> rstrip (String c r) = String c r.
Proof.
  intros H. pose proof (strip_fixed_head c r H) as Hc.
  unfold trimmed, strip in H. now rewrite (lstrip_head c r Hc) in H.
Qed.

Lemma join_cons sep x y ys :
  join sep (x :: y :: ys) = (x ++ sep ++ join sep (y :: ys))%string.
Proof. reflexivity. Qed.

(** Non-empty trimmed lines joined by single spaces are trimmed. *)
Lemma join_trimmed x xs :
  Forall (fun l => l <> "" /\ trimmed l) (x :: xs) ->
  join " " (x :: xs) <> "" /\ trimmed (join " " (x :: xs)).
Proof.
  revert x. induction xs as [|y ys IH]; intros x H.
  - inversion H as [|? ? [Hx Ht] _]; subst. cbn. now split.
  - inversion H as [|? ? [Hx Ht] Hrest]; subst.
    destruct (IH y Hrest) as [Hn Htr].
    split; [now apply join_not_empty|].
    rewrite join_cons.
    destruct x as [|c r]; [contradiction|].
    unfold trimmed.
    apply strip_keep.
    + exact (strip_fixed_head c r Ht).
    + now apply append_not_empty_r.
    + destruct (join " " (y :: ys)) as [|c' r'] eqn:E; [contradiction|].
      apply rstrip_app_keep; [discriminate|].
      now apply trimmed_rstrip.
Qed.

Lemma endswith_char_app ch s : endswith_char ch (s ++ String ch "") = true.
Proof.
  induction s as [|c s IH]; cbn [append endswith_char].
  - apply Ascii.eqb_refl.
  - destruct (s ++ String ch "")%string eqn:E; [|exact IH].
    destruct s; discriminate.
Qed.

Lemma startswith_split p s :
  startswith p s = true -> exists v, s = (p ++ v)%string.
Proof.
  revert s. induction p as [|a p IH]; intros s H; [now exists s|].
  destruct s as [|b s]; [discriminate|].
  cbn in H. apply andb_prop in H as [Hab Hp].
  apply Ascii.eqb_eq in Hab. subst b.
  destruct (IH s Hp) as [v ->]. now exists v.
Qed.

(** [sub in s] holds exactly when [s] is [sub] between two strings. *)
Lemma contains_iff p s :
  contains p s = true <-> exists u v, s = (u ++ p ++ v)%string.
Proof.
  split.
  - induction s as [|c s IH]; cbn [contains]; intros H.
    + rewrite orb_false_r in H. destruct (startswith_split _ _ H) as [v E].
      exists "", v. exact E.
    + apply orb_prop in H as [H|H].
      * destruct (startswith_split _ _ H) as [v E]. exists "", v. exact E.
      * destruct (IH H) as (u & v & E). exists (String c u), v.
        cbn. now rewrite E.
  - intros (u & v & ->). induction u as [|c u IH].
    + cbn [append]. apply contains_app_l.
    + cbn [append contains]. rewrite IH. apply orb_true_r.
Qed.

Lemma contains_trans p q s :
  contains p q = true -> contains q s = true -> contains p s = true.
Proof.
  rewrite !contains_iff. intros (u & v & ->) (u' & v' & ->).
  exists (u' ++ u)%string, (v ++ v')%string.
  now rewrite !append_assoc_str.
Qed.

Lemma contains_within p u s v :
  contains p s = true -> contains p (u ++ s ++ v) = true.
Proof.
  intros H. apply (contains_trans p s); [exact H|].
  apply contains_iff. now exists u, v.
Qed.

(** ** Narrative segmenter: which location a line is given to *)

Lemma find_location_some line locs n :
  find_location line locs = Some n ->
  exists pre loc post,
    locs = pre ++ loc :: post
    /\ name loc = n
    /\ contains (lower n) (lower line) = true
    /\ Forall (fun l => contains (lower (name l)) (lower line) = false) pre.
Proof.
  induction locs as [|l rest IH]; cbn [find_location]; [discriminate|].
  destruct (contains (lower (name l)) (lower line)) eqn:Hc; intros H.
  - injection H as <-. exists [], l, rest. repeat split; auto.
  - destruct (IH H) as (pre & loc & post & -> & Hn & Hin & Hpre).
    exists (l :: pre), loc, post. repeat split; auto.
Qed.

Lemma find_location_none line locs :
  find_location line locs = None ->
  Forall (fun l => contains (lower (name l)) (lower line) = false) locs.
Proof.
  induction locs as [|l rest IH]; cbn [find_location]; [constructor|].
  destruct (contains (lower (name l)) (lower line)) eqn:Hc; [discriminate|].
  intros H. constructor; auto.
Qed.

Lemma find_location_absent line locs :
  Forall (fun l => contains (lower (name l)) (lower line) = false) locs ->
  find_location line locs = None.
Proof.
  induction 1 as [|l rest Hl _ IH]; cbn [find_location]; [reflexivity|].
  now rewrite Hl.
Qed.

(** X9: first match wins: the inner loop of the primary pass returns the name
    of the first location, in list order, whose lower-cased name occurs in
    the lower-cased line, and nothing exactly when no name occurs. *)
Theorem find_location_first_match :
  forall (line : string) (locs : list LocationRecord),
    match find_location line locs with
    | Some n =>
        exists pre loc post,
          locs = pre ++ loc :: post
          /\ name loc = n
          /\ contains (lower n) (lower line) = true
          /\ Forall (fun l => contains (lower (name l)) (lower line) = false)
               pre
    | None =>
        Forall (fun l => contains (lower (name l)) (lower line) = false) locs
    end.
Proof.
  intros line locs. destruct (find_location line locs) as [n|] eqn:E.
  - now apply find_location_some.
  - now apply find_location_none.
Qed.

Lemma find_location_In line locs n :
  find_location line locs = Some n -> In n (map name locs).
Proof.
  intros H. destruct (find_location_some _ _ _ H)
    as (pre & loc & post & -> & <- & _).
  rewrite map_app, in_app_iff. right. now left.
Qed.

(** A property of every name the inner loop can return holds of the
    location of every record of the primary pass, and that location is not
    empty. *)
Lemma primary_pass_locations (Q : string -> Prop) text locs :
  (forall line n, find_location line locs = Some n -> Q n) ->
  Forall (fun r => Q (location r) /\ location r <> "")
    (primary_pass text locs).
Proof.
  intros HQ. unfold primary_pass.
  set (R := fun r => Q (location r) /\ location r <> "").
  assert (Hflush : forall st,
             (forall n, current_location st = Some n -> Q n) ->
             Forall R (emitted st) -> Forall R (flush st)).
  { intros st Hc He. unfold flush.
    destruct (current_location st) as [loc|] eqn:E; [|exact He].
    destruct (truthy loc) eqn:Ht; cbn [andb]; [|exact He].
    destruct (nonempty (current_narrative st)); [|exact He].
    apply Forall_app. split; [exact He|].
    constructor; [|constructor].
    split; cbn [location]; [now apply Hc | now apply truthy_true]. }
  assert (H : forall lines st,
             (forall n, current_location st = Some n -> Q n) ->
             Forall R (emitted st) ->
             Forall R (flush (fold_left (line_step locs) lines st))).
  { induction lines as [|raw rest IH]; intros st Hc He; cbn [fold_left].
    - now apply Hflush.
    - apply IH; unfold line_step;
        destruct (truthy (strip raw)); cbn [negb]; auto;
        destruct (find_location (strip raw) locs) as [f|] eqn:Ef;
        cbn [option_truthy].
      + destruct (truthy f); cbn [current_location].
        * intros n [= <-]. now apply (HQ (strip raw)).
        * destruct (option_truthy (current_location st)); auto.
      + destruct (option_truthy (current_location st)); auto.
      + destruct (truthy f); cbn [emitted].
        * now apply Hflush.
        * destruct (option_truthy (current_location st)); auto.
      + destruct (option_truthy (current_location st)); auto. }
  apply H; [discriminate | constructor].
Qed.

Lemma fallback_loop_Forall (R : NarrativeRecord -> Prop) locs sentences spl
    todo :
  forall i acc,
    (forall j loc, In loc todo ->
                   Forall R (chunk_records locs sentences spl j loc)) ->
    Forall R acc ->
    Forall R (fallback_loop locs sentences spl i todo acc).
Proof.
  induction todo as [|loc more IH]; intros i acc Hc Ha; cbn [fallback_loop].
  - exact Ha.
  - apply IH.
    + intros j l Hl. apply Hc. now right.
    + apply Forall_app. split; [exact Ha|]. apply Hc. now left.
Qed.

Lemma chunk_records_Forall (R : NarrativeRecord -> Prop) locs sentences spl i
    loc :
  (forall text, R (told (name loc) text)) ->
  Forall R (chunk_records locs sentences spl i loc).
Proof.
  intros H. unfold chunk_records.
  destruct (truthy (strip (join "." (chunk sentences spl i))));
    constructor; [apply H | constructor].
Qed.

(** X11: every record the segmenter returns, on either path, is for a location
    of the list it was given; on the primary path that name is not
    empty. *)
Theorem segment_locations_known :
  forall (text : string) (locs : list LocationRecord),
  exists recs,
    parse_location_narratives text locs = Ok recs
    /\ Forall (fun r => In (location r) (map name locs)) recs
    /\ Forall (fun r => location r <> "") (primary_pass text locs).
Proof.
  intros text locs. eexists.
  split; [apply parse_location_narratives_returns|].
  pose proof (primary_pass_locations (fun n => In n (map name locs)) text locs
                (fun line n => find_location_In line locs n)) as Hp.
  split.
  - destruct (runs_fallback text locs).
    + apply fallback_loop_Forall; [|constructor].
      intros j loc Hin. apply chunk_records_Forall.
      intros t. cbn [told location]. now apply in_map.
    + eapply Forall_impl; [|exact Hp]. cbn. tauto.
  - eapply Forall_impl; [|exact Hp]. cbn. tauto.
Qed.

(** X10: a location listed after one whose name occurs inside its own name is
    never chosen for a line, so the primary pass gives it no record
    (["Bank"] listed before ["Georges Bank"]). *)
Theorem shadowed_location_gets_no_section :
  forall (pre : list LocationRecord) (l1 : LocationRecord)
         (post : list LocationRecord) (n2 text : string),
    contains (lower (name l1)) (lower n2) = true ->
    name l1 <> n2 ->
    Forall (fun l => name l <> n2) pre ->
    (forall line, find_location line (pre ++ l1 :: post) <> Some n2)
    /\ Forall (fun r => location r <> n2)
         (primary_pass text (pre ++ l1 :: post)).
Proof.
  intros pre l1 post n2 text Hsub Hne Hpre.
  assert (Hfind : forall line,
             find_location line (pre ++ l1 :: post) <> Some n2).
  { intros line. induction Hpre as [|p pre' Hp _ IH];
      cbn [app find_location].
    - destruct (contains (lower (name l1)) (lower line)) eqn:Hc.
      + congruence.
      + intros H. destruct (find_location_some _ _ _ H)
          as (_ & _ & _ & _ & _ & Hin & _).
        rewrite (contains_trans _ _ _ Hsub Hin) in Hc. discriminate.
    - destruct (contains (lower (name p)) (lower line)); [congruence|].
      exact IH. }
  split; [exact Hfind|].
  pose proof (primary_pass_locations (fun n => n <> n2) text
                (pre ++ l1 :: post)) as H.
  eapply Forall_impl; [|apply H].
  - cbn. tauto.
  - intros line n Hf ->. now apply (Hfind line).
Qed.

Lemma shadowed_location_gets_no_section_witness :
  (forall line,
      find_location line [named "Bank"; named "Georges Bank"]
      <> Some "Georges Bank")
  /\ Forall (fun r => location r <> "Georges Bank")
       (primary_pass "Georges Bank: rough seas"
          [named "Bank"; named "Georges Bank"]).
Proof.
  apply (shadowed_location_gets_no_section [] (named "Bank")
           [named "Georges Bank"] "Georges Bank" "Georges Bank: rough seas").
  - reflexivity.
  - discriminate.
  - constructor.
Defined.

(** ** Narrative segmenter: the shape of the texts *)

Lemma primary_pass_trimmed text locs :
  Forall (fun r => trimmed (narrative r)) (primary_pass text locs).
Proof.
  unfold primary_pass.
  set (R := fun r => trimmed (narrative r)).
  set (B := fun l : string => l <> "" /\ trimmed l).
  assert (Hflush : forall st,
             Forall R (emitted st) -> Forall B (current_narrative st) ->
             Forall R (flush st)).
  { intros st He Hb. unfold flush.
    destruct (current_location st) as [loc|]; [|exact He].
    destruct (truthy loc); cbn [andb]; [|exact He].
    destruct (current_narrative st) as [|l ls]; cbn [nonempty]; [exact He|].
    apply Forall_app. split; [exact He|].
    constructor; [|constructor].
    unfold R. cbn [narrative]. now apply join_trimmed. }
  assert (H : forall lines st,
             Forall R (emitted st) -> Forall B (current_narrative st) ->
             Forall R (flush (fold_left (line_step locs) lines st))).
  { induction lines as [|raw rest IH]; intros st He Hb; cbn [fold_left].
    - now apply Hflush.
    - apply IH; unfold line_step;
        destruct (truthy (strip raw)) eqn:Hl; cbn [negb]; auto;
        destruct (option_truthy (find_location (strip raw) locs));
        cbn [emitted current_narrative].
      + now apply Hflush.
      + destruct (option_truthy (current_location st)); auto.
      + destruct (truthy (clean_narrative_line _ _)) eqn:Hc;
          constructor; [|constructor].
        split; [now apply truthy_true|].
        unfold clean_narrative_line. apply trimmed_strip.
      + destruct (option_truthy (current_location st)); auto.
        cbn [current_narrative]. apply Forall_app. split; [exact Hb|].
        constructor; [|constructor].
        split; [now apply truthy_true | apply trimmed_strip]. }
  apply H; constructor.
Qed.

(** X12: every text of the primary pass is trimmed: it neither starts nor ends
    with white space, whatever the spacing of the reply. *)
Theorem primary_narratives_trimmed :
  forall (text : string) (locs : list LocationRecord),
    Forall (fun r => strip (narrative r) = narrative r)
      (primary_pass text locs)
    /\ (if runs_fallback text locs then True
        else exists recs,
            parse_location_narratives text locs = Ok recs
            /\ Forall (fun r => strip (narrative r) = narrative r) recs).
Proof.
  intros text locs. split; [apply primary_pass_trimmed|].
  destruct (runs_fallback text locs) eqn:Hr; [exact I|].
  eexists. split; [apply parse_location_narratives_returns|].
  rewrite Hr. apply primary_pass_trimmed.
Qed.

Lemma chunk_records_stop locs sentences spl i loc :
  Forall (fun r => endswith_char "." (narrative r) = true)
    (chunk_records locs sentences spl i loc).
Proof.
  unfold chunk_records.
  destruct (truthy (strip (join "." (chunk sentences spl i))));
    constructor; [|constructor].
  cbn [narrative].
  set (t := strip_first_heading _ locs).
  destruct (endswith_char "." t) eqn:He; cbn [negb]; [exact He|].
  apply endswith_char_app.
Qed.

(** X13: on the sentence-split fallback path every text ends with a full
    stop. *)
Theorem fallback_narratives_end_with_stop :
  forall (text : string) (locs : list LocationRecord),
    runs_fallback text locs = true ->
    exists recs,
      parse_location_narratives text locs = Ok recs
      /\ Forall (fun r => endswith_char "." (narrative r) = true) recs.
Proof.
  intros text locs Hr. eexists.
  split; [apply parse_location_narratives_returns|].
  rewrite Hr. apply fallback_loop_Forall; [|constructor].
  intros j loc _. apply chunk_records_stop.
Qed.

Lemma fallback_narratives_end_with_stop_witness :
  exists recs,
    parse_location_narratives five_sentences [named "A"; named "B"] = Ok recs
    /\ Forall (fun r => endswith_char "." (narrative r) = true) recs.
Proof.
  apply (fallback_narratives_end_with_stop five_sentences
           [named "A"; named "B"]).
  vm_compute. reflexivity.
Defined.

(** ** Replies that name no location *)

Lemma lstrip_within s : exists u, s = (u ++ lstrip s)%string.
Proof.
  induction s as [|c s [u IH]]; [now exists ""|].
  cbn [lstrip]. destruct (isspace c).
  - exists (String c u). cbn. now rewrite <- IH.
  - now exists "".
Qed.

Lemma rstrip_within s : exists v, s = (rstrip s ++ v)%string.
Proof.
  induction s as [|c s [v IH]]; [now exists ""|].
  rewrite rstrip_cons. destruct (rstrip s) as [|x t].
  - destruct (isspace c).
    + now exists (String c s).
    + exists s. reflexivity.
  - exists v. cbn [append] in *. now rewrite <- IH.
Qed.

Lemma strip_within s : exists u v, s = (u ++ strip s ++ v)%string.
Proof.
  destruct (lstrip_within s) as [u Hu].
  destruct (rstrip_within (lstrip s)) as [v Hv].
  exists u, v. unfold strip. now rewrite <- Hv.
Qed.

Lemma split_head ch s :
  exists h t v, split ch s = h :: t /\ s = (h ++ v)%string.
Proof.
  induction s as [|c s (h & t & v & E & Hs)].
  - now exists "", [], "".
  - cbn [split]. destruct (Ascii.eqb c ch).
    + now exists "", (split ch s), (String c s).
    + rewrite E. exists (String c h), t, v. split; [reflexivity|].
      cbn. now rewrite <- Hs.
Qed.

(** Every piece of a split is a part of the text. *)
Lemma split_within ch s x :
  In x (split ch s) -> exists u v, s = (u ++ x ++ v)%string.
Proof.
  revert x. induction s as [|c s IH]; intros x Hin.
  - destruct Hin as [<-|[]]. now exists "", "".
  - cbn [split] in Hin. destruct (Ascii.eqb c ch).
    + destruct Hin as [<-|Hin].
      * now exists "", (String c s).
      * destruct (IH x Hin) as (u & v & E).
        exists (String c u), v. cbn. now rewrite <- E.
    + destruct (split_head ch s) as (h & t & w & E & Hs).
      rewrite E in Hin, IH. destruct Hin as [<-|Hin].
      * exists "", w. cbn. now rewrite <- Hs.
      * destruct (IH x (or_intror Hin)) as (u & v & E').
        exists (String c u), v. cbn. now rewrite <- E'.
Qed.

(** A name that occurs in a trimmed line of the reply occurs in the
    reply. *)
Lemma contains_line p text raw :
  In raw (split "010" (strip text)) ->
  contains p (lower (strip raw)) = true ->
  contains p (lower text) = true.
Proof.
  intros Hin Hc.
  destruct (split_within _ _ _ Hin) as (u1 & v1 & E1).
  destruct (strip_within raw) as (u2 & v2 & E2).
  destruct (strip_within text) as (u3 & v3 & E3).
  rewrite E3, E1, E2, !lower_app.
  do 3 apply contains_within. exact Hc.
Qed.

Lemma heading_lines_without_names text locs :
  Forall (fun l => contains (lower (name l)) (lower text) = false) locs ->
  heading_lines text locs = [].
Proof.
  intros Hno. unfold heading_lines.
  assert (H : forall lines,
             (forall raw, In raw lines -> In raw (split "010" (strip text))) ->
             filter (is_heading locs) lines = []).
  { induction lines as [|raw rest IH]; intros Hsub; [reflexivity|].
    cbn [filter].
    assert (Hf : find_location (strip raw) locs = None).
    { apply find_location_absent.
      eapply Forall_impl; [|exact Hno].
      intros l Hl. cbn in Hl.
      destruct (contains (lower (name l)) (lower (strip raw))) eqn:Hc;
        [|reflexivity].
      rewrite (contains_line _ text raw) in Hl; [discriminate| |exact Hc].
      apply Hsub. now left. }
    unfold is_heading at 1. rewrite Hf. cbn [option_truthy].
    rewrite andb_false_r. apply IH. intros r Hr. apply Hsub. now right. }
  apply H. auto.
Qed.

(** X14: when no location name occurs anywhere in the reply (case-insensitively)
    the primary pass emits nothing, and the segmenter returns what the
    sentence-split fallback gives for the locations. *)
Theorem reply_without_names_uses_fallback :
  forall (text : string) (locs : list LocationRecord),
    Forall (fun l => contains (lower (name l)) (lower text) = false) locs ->
    primary_pass text locs = []
    /\ runs_fallback text locs = nonempty locs
    /\ parse_location_narratives text locs
       = Ok (flat_map
               (fun il =>
                  chunk_records locs (split "." text)
                    (Nat.max 1 (List.length (split "." text)
                                / List.length locs))
                    (fst il) (snd il))
               (combine (seq 0 (List.length locs)) locs)).
Proof.
  intros text locs Hno.
  assert (Hp : primary_pass text locs = []).
  { pose proof (primary_pass_length text locs) as Hl.
    rewrite (heading_lines_without_names text locs Hno) in Hl.
    destruct (primary_pass text locs); [reflexivity | cbn in Hl; lia]. }
  assert (Hr : runs_fallback text locs = nonempty locs)
    by (unfold runs_fallback; now rewrite Hp).
  split; [exact Hp|]. split; [exact Hr|].
  rewrite parse_location_narratives_returns, Hr, Hp.
  destruct locs as [|l ls]; [reflexivity|].
  cbn [nonempty]. now rewrite fallback_loop_flat.
Qed.

Lemma reply_without_names_uses_fallback_witness :
  primary_pass five_sentences [named "A"; named "B"] = []
  /\ runs_fallback five_sentences [named "A"; named "B"] = true
  /\ parse_location_narratives five_sentences [named "A"; named "B"]
     = Ok (flat_map
             (fun il =>
                chunk_records [named "A"; named "B"]
                  (split "." five_sentences)
                  (Nat.max 1 (List.length (split "." five_sentences) / 2))
                  (fst il) (snd il))
             (combine (seq 0 2) [named "A"; named "B"])).
Proof.
  apply (reply_without_names_uses_fallback five_sentences
           [named "A"; named "B"]).
  repeat constructor.
Defined.

(** ** Fact classifier: further properties *)



Lemma nonempty_same_elements {A} (xs ys : list A) :
  (forall x, In x xs <-> In x ys) -> nonempty xs = nonempty ys.
Proof.
  intros H. destruct xs as [|x xs], ys as [|y ys]; try reflexivity.
  - destruct (proj2 (H y)). now left.
  - destruct (proj1 (H x)). now left.
Qed.

(** X2: up to repetition the primary classifier returns the records of the
    qualifying mapping nodes, and the fallback is taken exactly when the
    document has no qualifying node. *)
Theorem classifier_records_are_qualifying :
  forall (data : json),
    (forall x, In x (primary_locations data)
               <-> In x (qualifying_records data))
    /\ takes_fallback data = negb (nonempty (qualifying_records data)).
Proof.
  intros data. split; [apply primary_locations_In|].
  unfold takes_fallback. f_equal.
  apply nonempty_same_elements, primary_locations_In.
Qed.

(** ** Fallback flattener: unfolding equations *)

Lemma fallback_extract_dict d parent_key st :
  fallback_extract (JDict d) parent_key st = fallback_items parent_key d st.
Proof.
  cbn [fallback_extract]. revert st.
  induction d as [|[key value] rest IH]; intros st; [reflexivity|].
  destruct value; cbn [fallback_items fallback_step]; try apply IH.
  destruct (truthy (strip s)); apply IH.
Qed.

Lemma fallback_extract_list items parent_key st :
  fallback_extract (JList items) parent_key st
  = fallback_enumerate parent_key items 0 st.
Proof.
  cbn [fallback_extract]. generalize 0 as i. revert st.
  induction items as [|item more IH]; intros st i; [reflexivity|].
  cbn [fallback_enumerate]. apply IH.
Qed.

(** An invariant of the three flat lists that every appended element keeps
    is kept by the traversal. *)
Lemma fallback_extract_invariant (Inv : flat -> Prop) :
  (forall parent_key key value st,
      truthy (strip value) = true -> Inv st ->
      Inv (flat_string parent_key key value st)) ->
  forall obj parent_key st, Inv st -> Inv (fallback_extract obj parent_key st).
Proof.
  intros Hstr obj.
  induction obj as [| | | |items IH|d IH] using json_nested_ind;
    intros parent_key st Hst; try exact Hst.
  - rewrite fallback_extract_list. generalize 0 as i. revert st Hst.
    induction IH as [|item more Hitem _ IHm]; intros st Hst i; [exact Hst|].
    cbn [fallback_enumerate]. apply IHm. now apply Hitem.
  - rewrite fallback_extract_dict. revert st Hst.
    induction IH as [|[key value] rest Hv _ IHr]; intros st Hst; [exact Hst|].
    cbn [fallback_items]. apply IHr. cbn [snd] in Hv.
    unfold fallback_step. destruct value; try now apply Hv.
    destruct (truthy (strip s)) eqn:Ht; [now apply Hstr | now apply Hv].
Qed.

(** ** Well-formed records *)

Lemma fact_well_formed key value :
  truthy (strip value) = true -> well_formed_fact (fact key value).
Proof.
  intros H. exists key, (strip value). repeat split.
  - now apply truthy_true.
  - apply trimmed_strip.
Qed.

Lemma sub_facts_well_formed sub : Forall well_formed_fact (sub_facts sub).
Proof.
  induction sub as [|[k v] rest IH]; [constructor|].
  destruct v; cbn [sub_facts]; try exact IH.
  destruct (truthy (strip s)) eqn:Ht; [|exact IH].
  constructor; [now apply fact_well_formed | exact IH].
Qed.

(** What the locals of a mapping node satisfy at every step. *)
Lemma own_step_well_formed key value nd :
  (forall n, location_name nd = Some n -> trimmed n) ->
  Forall well_formed_fact (weather_data nd) ->
  Forall well_formed_fact (wave_data nd) ->
  (forall n, location_name (own_step key value nd) = Some n -> trimmed n)
  /\ Forall well_formed_fact (weather_data (own_step key value nd))
  /\ Forall well_formed_fact (wave_data (own_step key value nd)).
Proof.
  intros Hn Hw Hv. destruct value; cbn [own_step]; auto.
  - destruct (truthy (strip s)) eqn:Ht; auto.
    unfold classify_string.
    destruct (any_keyword WAYPOINT_KEYWORDS (lower key)).
    { cbn. repeat split; auto. intros n [= <-]. apply trimmed_strip. }
    destruct (any_keyword WEATHER_KEYWORDS (lower key)).
    { cbn. repeat split; auto. apply Forall_app. split; auto.
      constructor; [now apply fact_well_formed | constructor]. }
    destruct (any_keyword WAVE_KEYWORDS (lower key)); auto.
    cbn. repeat split; auto. apply Forall_app. split; auto.
    constructor; [now apply fact_well_formed | constructor].
  - destruct (any_keyword WEATHER_KEYWORDS (lower key)).
    { cbn. repeat split; auto. apply Forall_app. split; auto.
      apply sub_facts_well_formed. }
    destruct (any_keyword WAVE_KEYWORDS (lower key)); auto.
    cbn. repeat split; auto. apply Forall_app. split; auto.
    apply sub_facts_well_formed.
Qed.

Lemma own_record_well_formed d :
  Forall (fun l => well_formed_location l
                   /\ (weather l <> [] \/ waves l <> []))
    (own_record d).
Proof.
  assert (H : forall d nd,
             (forall n, location_name nd = Some n -> trimmed n) ->
             Forall well_formed_fact (weather_data nd) ->
             Forall well_formed_fact (wave_data nd) ->
             let nd' := fold_left
                          (fun nd kv => own_step (fst kv) (snd kv) nd) d nd in
             (forall n, location_name nd' = Some n -> trimmed n)
             /\ Forall well_formed_fact (weather_data nd')
             /\ Forall well_formed_fact (wave_data nd')).
  { clear d. induction d as [|[key value] rest IH]; intros nd Hn Hw Hv;
      cbn [fold_left fst snd]; [auto|].
    destruct (own_step_well_formed key value nd Hn Hw Hv) as (H1 & H2 & H3).
    now apply IH. }
  destruct (H d empty_node) as (Hn & Hw & Hv);
    [discriminate | constructor | constructor |].
  unfold own_record. fold (own_facts d) in Hn, Hw, Hv.
  destruct (location_name (own_facts d)) as [n|] eqn:E; [|constructor].
  destruct (truthy n) eqn:Ht; cbn [andb]; [|constructor].
  destruct (nonempty (weather_data (own_facts d))
            || nonempty (wave_data (own_facts d))) eqn:Hf; constructor;
    [|constructor].
  split.
  - repeat split; cbn [name weather waves]; auto. now apply truthy_true.
  - cbn [weather waves]. apply orb_prop in Hf as [Hf|Hf];
      [left | right]; intros Hnil; rewrite Hnil in Hf; discriminate.
Qed.

Lemma qualifying_records_well_formed obj :
  Forall (fun l => well_formed_location l
                   /\ (weather l <> [] \/ waves l <> []))
    (qualifying_records obj).
Proof.
  induction obj as [| | | |items IH|d IH] using json_nested_ind;
    try constructor.
  - cbn [qualifying_records]. apply Forall_flat_map. exact IH.
  - cbn [qualifying_records]. apply Forall_app. split.
    + apply Forall_flat_map.
      eapply Forall_impl; [|exact IH].
      intros [key value] Hv. cbn [fst snd] in *.
      destruct value; try constructor.
      * cbn [qualifying_records] in Hv. exact Hv.
      * destruct (fact_key key); [constructor | exact Hv].
    + apply own_record_well_formed.
Qed.

Lemma primary_locations_well_formed data :
  Forall (fun l => well_formed_location l
                   /\ (weather l <> [] \/ waves l <> []))
    (primary_locations data).
Proof.
  apply Forall_forall. intros x Hx.
  apply primary_locations_In in Hx.
  pose proof (qualifying_records_well_formed data) as H.
  rewrite Forall_forall in H. now apply H.
Qed.

Lemma fallback_extract_well_formed obj parent_key :
  let st := fallback_extract obj parent_key empty_flat in
  Forall (fun w => w <> "" /\ trimmed w) (waypoints st)
  /\ Forall well_formed_fact (flat_weather st)
  /\ Forall well_formed_fact (flat_waves st).
Proof.
  apply (fallback_extract_invariant
           (fun st => Forall (fun w => w <> "" /\ trimmed w) (waypoints st)
                      /\ Forall well_formed_fact (flat_weather st)
                      /\ Forall well_formed_fact (flat_waves st))).
  - intros pk key value st Ht (Hw & Hf & Hv). unfold flat_string.
    destruct (any_keyword WAYPOINT_KEYWORDS _).
    { cbn. repeat split; auto. apply Forall_app. split; auto.
      constructor; [|constructor].
      split; [now apply truthy_true | apply trimmed_strip]. }
    destruct (any_keyword WEATHER_KEYWORDS _).
    { cbn. repeat split; auto. apply Forall_app. split; auto.
      constructor; [now apply fact_well_formed | constructor]. }
    destruct (any_keyword WAVE_KEYWORDS _); auto.
    cbn. repeat split; auto. apply Forall_app. split; auto.
    constructor; [now apply fact_well_formed | constructor].
  - cbn. repeat split; constructor.
Qed.

(** X5: every location of the dataset, on the primary and on the fallback path,
    has a non-empty trimmed name, and each of its weather and wave facts
    reads ["key: value"] with a non-empty trimmed value. *)
Theorem dataset_locations_well_formed :
  forall (data : json),
    Forall
      (fun l =>
         name l <> "" /\ strip (name l) = name l
         /\ Forall (fun f => exists key value,
                        f = (key ++ ": " ++ value)%string
                        /\ value <> "" /\ strip value = value)
              (weather l)
         /\ Forall (fun f => exists key value,
                        f = (key ++ ": " ++ value)%string
                        /\ value <> "" /\ strip value = value)
              (waves l))
      (locations (extract_maritime_data data)).
Proof.
  intros data. change (Forall well_formed_location
                         (locations (extract_maritime_data data))).
  unfold extract_maritime_data.
  destruct (nonempty (primary_locations data)) eqn:Hp; cbn [negb locations].
  - eapply Forall_impl; [|apply primary_locations_well_formed].
    cbn. tauto.
  - apply nonempty_false in Hp. rewrite Hp. cbn [app].
    destruct (fallback_extract_well_formed data "") as (Hw & Hf & Hv).
    apply Forall_map. eapply Forall_impl; [|exact Hw].
    intros w [Hn Ht]. repeat split; assumption.
Qed.

(** X4: a record of the primary classifier carries at least one weather or wave
    fact. *)
Theorem primary_locations_have_facts :
  forall (data : json),
    Forall (fun l => weather l <> [] \/ waves l <> [])
      (primary_locations data).
Proof.
  intros data.
  eapply Forall_impl; [|apply primary_locations_well_formed].
  cbn. tauto.
Qed.

(** ** Documents without text *)

Lemma node_eta nd :
  mkNode (location_name nd) (weather_data nd) (wave_data nd) = nd.
Proof. now destruct nd. Qed.

Lemma flat_eta st :
  mkFlat (waypoints st) (flat_weather st) (flat_waves st) = st.
Proof. now destruct st. Qed.

Lemma sub_facts_no_text sub :
  forallb (fun kv => no_text (snd kv)) sub = true -> sub_facts sub = [].
Proof.
  induction sub as [|[k v] rest IH]; [reflexivity|].
  cbn [forallb snd]. intros H. apply andb_prop in H as [Hv Hrest].
  destruct v; cbn [sub_facts]; auto.
  cbn [no_text] in Hv. apply negb_true_iff in Hv. rewrite Hv. auto.
Qed.

Lemma own_step_no_text key value nd :
  no_text value = true -> own_step key value nd = nd.
Proof.
  intros H. destruct value; cbn [own_step]; auto.
  - cbn [no_text] in H. apply negb_true_iff in H. now rewrite H.
  - cbn [no_text] in H. rewrite (sub_facts_no_text _ H), !app_nil_r.
    rewrite node_eta.
    destruct (any_keyword WEATHER_KEYWORDS (lower key)); [reflexivity|].
    now destruct (any_keyword WAVE_KEYWORDS (lower key)).
Qed.

Lemma own_record_no_text d :
  forallb (fun kv => no_text (snd kv)) d = true -> own_record d = [].
Proof.
  intros H.
  assert (Hf : forall nd,
             fold_left (fun nd kv => own_step (fst kv) (snd kv) nd) d nd = nd).
  { induction d as [|[key value] rest IH]; intros nd; [reflexivity|].
    cbn [forallb snd] in H. apply andb_prop in H as [Hv Hrest].
    cbn [fold_left fst snd]. rewrite (own_step_no_text key value nd Hv).
    now apply IH. }
  unfold own_record, own_facts. now rewrite Hf.
Qed.

Lemma flat_map_nil {A B} (f : A -> list B) xs :
  Forall (fun x => f x = []) xs -> flat_map f xs = [].
Proof.
  induction 1 as [|x xs Hx _ IH]; [reflexivity|].
  cbn [flat_map]. now rewrite Hx, IH.
Qed.

Lemma qualifying_records_no_text obj :
  no_text obj = true -> qualifying_records obj = [].
Proof.
  induction obj as [| | | |items IH|d IH] using json_nested_ind;
    intros H; try reflexivity.
  - cbn [qualifying_records no_text] in *.
    apply flat_map_nil. rewrite forallb_forall in H.
    rewrite Forall_forall in *. auto.
  - cbn [qualifying_records no_text] in *.
    rewrite (own_record_no_text d H), app_nil_r.
    apply flat_map_nil. rewrite forallb_forall in H.
    rewrite Forall_forall in *. intros [key value] Hin.
    specialize (IH _ Hin). specialize (H _ Hin). cbn [fst snd] in *.
    destruct value; try reflexivity.
    + now apply IH.
    + destruct (fact_key key); [reflexivity | now apply IH].
Qed.

Lemma fallback_extract_no_text obj :
  no_text obj = true ->
  forall parent_key st, fallback_extract obj parent_key st = st.
Proof.
  induction obj as [| | | |items IH|d IH] using json_nested_ind;
    intros H parent_key st; try reflexivity.
  - rewrite fallback_extract_list. cbn [no_text] in H.
    generalize 0 as i.
    induction IH as [|item more Hitem _ IHm]; intros i; [reflexivity|].
    cbn [forallb] in H. apply andb_prop in H as [Hi Hm].
    cbn [fallback_enumerate]. rewrite (Hitem Hi). now apply IHm.
  - rewrite fallback_extract_dict. cbn [no_text] in H.
    induction IH as [|[key value] rest Hv _ IHr]; [reflexivity|].
    cbn [forallb snd] in H, Hv. apply andb_prop in H as [Hi Hm].
    cbn [fallback_items].
    assert (Hs : fallback_step parent_key key value st = st).
    { unfold fallback_step. destruct value; try now apply Hv.
      cbn [no_text] in Hi. apply negb_true_iff in Hi. rewrite Hi.
      reflexivity. }
    rewrite Hs. now apply IHr.
Qed.

Lemma format_maritime_prompt_empty prefix :
  format_maritime_prompt (mkDataset []) prefix = prefix.
Proof. now destruct prefix. Qed.

(** X6: a document without any non-blank string value, whatever its keys and
    its shape, yields the empty dataset on both paths, and the prompt made
    from it is the prefix alone. *)
Theorem document_without_text :
  forall (data : json) (prefix : string),
    no_text data = true ->
    primary_locations data = []
    /\ fallback_extract data "" empty_flat = empty_flat
    /\ extract_maritime_data data = mkDataset []
    /\ format_maritime_prompt (extract_maritime_data data) prefix = prefix.
Proof.
  intros data prefix H.
  assert (Hp : primary_locations data = []).
  { destruct (primary_locations data) as [|x xs] eqn:E; [reflexivity|].
    assert (Hin : In x (qualifying_records data))
      by (apply primary_locations_In; rewrite E; now left).
    rewrite (qualifying_records_no_text data H) in Hin. destruct Hin. }
  assert (Hf := fallback_extract_no_text data H "" empty_flat).
  assert (Hd : extract_maritime_data data = mkDataset []).
  { unfold extract_maritime_data. rewrite Hp, Hf. reflexivity. }
  repeat split; auto.
  rewrite Hd. apply format_maritime_prompt_empty.
Qed.

Lemma document_without_text_witness :
  primary_locations textless_doc = []
  /\ fallback_extract textless_doc "" empty_flat = empty_flat
  /\ extract_maritime_data textless_doc = mkDataset []
  /\ format_maritime_prompt (extract_maritime_data textless_doc) "Tell: "
     = "Tell: ".
Proof.
  apply (document_without_text textless_doc "Tell: ").
  reflexivity.
Defined.

(** ** The fallback flattener only appends *)

Lemma flat_app_empty_r st : flat_app st empty_flat = st.
Proof. unfold flat_app. cbn. rewrite !app_nil_r. apply flat_eta. Qed.

Lemma flat_app_assoc a b c :
  flat_app (flat_app a b) c = flat_app a (flat_app b c).
Proof. unfold flat_app. cbn. now rewrite !app_assoc. Qed.

Lemma flat_string_frame parent_key key value st :
  flat_string parent_key key value st
  = flat_app st (flat_string parent_key key value empty_flat).
Proof.
  unfold flat_string.
  destruct (any_keyword WAYPOINT_KEYWORDS _);
    [unfold flat_app; cbn; now rewrite !app_nil_r|].
  destruct (any_keyword WEATHER_KEYWORDS _);
    [unfold flat_app; cbn; now rewrite !app_nil_r|].
  destruct (any_keyword WAVE_KEYWORDS _);
    [unfold flat_app; cbn; now rewrite !app_nil_r|].
  now rewrite flat_app_empty_r.
Qed.

(** X7: what the flattener collected before it visits a subtree stays in front,
    and what the subtree adds does not depend on it. *)
Theorem fallback_only_appends :
  forall (obj : json) (parent_key : string) (st : flat),
    fallback_extract obj parent_key st
    = flat_app st (fallback_extract obj parent_key empty_flat).
Proof.
  intros obj.
  induction obj as [| | | |items IH|d IH] using json_nested_ind;
    intros parent_key st;
    try (cbn [fallback_extract]; now rewrite flat_app_empty_r).
  - rewrite !fallback_extract_list. generalize 0 as i. revert st.
    induction IH as [|item more Hitem _ IHm]; intros st i.
    + cbn. now rewrite flat_app_empty_r.
    + cbn [fallback_enumerate].
      rewrite IHm.
      rewrite (IHm (fallback_extract item _ empty_flat)).
      rewrite Hitem. now rewrite flat_app_assoc.
  - rewrite !fallback_extract_dict. revert st.
    induction IH as [|[key value] rest Hv _ IHr]; intros st.
    + cbn. now rewrite flat_app_empty_r.
    + cbn [fallback_items snd] in *.
      assert (Hs : fallback_step parent_key key value st
                   = flat_app st
                       (fallback_step parent_key key value empty_flat)).
      { unfold fallback_step. destruct value; try apply Hv.
        destruct (truthy (strip s)); [apply flat_string_frame | apply Hv]. }
      rewrite IHr.
      rewrite (IHr (fallback_step parent_key key value empty_flat)).
      rewrite Hs. now rewrite flat_app_assoc.
Qed.

(** ** Prompt composer *)

Lemma contains_app_left p a b :
  contains p a = true -> contains p (a ++ b) = true.
Proof.
  intros H. apply contains_iff in H as (u & v & ->).
  apply contains_iff. exists u, (v ++ b)%string.
  now rewrite !append_assoc_str.
Qed.

Lemma contains_app_right p a b :
  contains p b = true -> contains p (a ++ b) = true.
Proof.
  intros H. apply contains_iff in H as (u & v & ->).
  apply contains_iff. exists (a ++ u)%string, v.
  now rewrite !append_assoc_str.
Qed.

Lemma append_nil_r_str s : (s ++ "")%string = s.
Proof. induction s as [|c s IH]; cbn; [reflexivity | now rewrite IH]. Qed.

Lemma contains_refl p : contains p p = true.
Proof. apply contains_iff. exists "", "". cbn. now rewrite append_nil_r_str. Qed.

Lemma contains_join sep x xs :
  In x xs -> contains x (join sep xs) = true.
Proof.
  induction xs as [|y ys IH]; intros Hin; [destruct Hin|].
  destruct ys as [|z zs].
  - destruct Hin as [->|[]]. apply contains_refl.
  - rewrite join_cons. destruct Hin as [->|Hin].
    + apply contains_app_left, contains_refl.
    + now apply contains_app_right, contains_app_right, IH.
Qed.

Lemma nonempty_In {A} (x : A) xs : In x xs -> nonempty xs = true.
Proof. destruct xs; [intros [] | reflexivity]. Qed.

Lemma location_section_mentions loc :
  startswith ("LOCATION: " ++ name loc) (location_section loc) = true
  /\ Forall (fun f => contains f (location_section loc) = true) (weather loc)
  /\ Forall (fun f => contains f (location_section loc) = true) (waves loc).
Proof.
  unfold location_section. split; [|split].
  - destruct (nonempty (weather loc)), (nonempty (waves loc)).
    + rewrite append_assoc_str. apply startswith_app.
    + apply startswith_app.
    + apply startswith_app.
    + rewrite <- (append_nil_r_str ("LOCATION: " ++ name loc)) at 2.
      apply startswith_app.
  - apply Forall_forall. intros f Hf.
    rewrite (nonempty_In f _ Hf).
    assert (H : contains f ("LOCATION: " ++ name loc ++ " WEATHER: "
                            ++ join " " (weather loc)) = true)
      by now apply contains_app_right, contains_app_right,
                   contains_app_right, contains_join.
    rewrite <- append_assoc_str in H.
    destruct (nonempty (waves loc)); [now apply contains_app_left | exact H].
  - apply Forall_forall. intros f Hf.
    rewrite (nonempty_In f _ Hf).
    now apply contains_app_right, contains_app_right, contains_join.
Qed.

(** X8: nothing is lost on the way into the prompt: it starts with the prefix
    and, for every location of the dataset, contains the heading
    ["LOCATION: {name}"] and each of its weather and wave facts. *)
Theorem prompt_mentions_every_fact :
  forall (maritime_data : MaritimeDataset) (prefix : string),
    let prompt := format_maritime_prompt maritime_data prefix in
    startswith prefix prompt = true
    /\ Forall
         (fun loc =>
            contains ("LOCATION: " ++ name loc) prompt = true
            /\ Forall (fun f => contains f prompt = true) (weather loc)
            /\ Forall (fun f => contains f prompt = true) (waves loc))
         (locations maritime_data).
Proof.
  intros maritime_data prefix prompt. split.
  - unfold prompt, format_maritime_prompt.
    destruct prefix as [|c r]; [reflexivity|]. cbn [truthy app].
    destruct (map location_section (locations maritime_data)) as [|y ys].
    + cbn. rewrite Ascii.eqb_refl. cbn.
      rewrite <- (append_nil_r_str r) at 2. apply startswith_app.
    + rewrite join_cons. apply startswith_app.
  - apply Forall_forall. intros loc Hloc.
    assert (Hsec : contains (location_section loc) prompt = true).
    { unfold prompt, format_maritime_prompt. apply contains_join.
      apply in_app_iff. right. now apply in_map. }
    destruct (location_section_mentions loc) as (Hn & Hw & Hv).
    repeat split.
    + eapply contains_trans; [|exact Hsec]. now apply contains_startswith.
    + eapply Forall_impl; [|exact Hw]. intros f Hf.
      eapply contains_trans; [exact Hf | exact Hsec].
    + eapply Forall_impl; [|exact Hv]. intros f Hf.
      eapply contains_trans; [exact Hf | exact Hsec].
Qed.

(** ** Response assembler: further properties *)

Lemma enrich_weather_source locs n :
  n_weather (enrich locs n) = n_weather n
  \/ exists loc,
       In loc locs /\ name loc = location n /\ weather loc <> []
       /\ n_weather (enrich locs n) = Some (weather loc).
Proof.
  induction locs as [|l rest IH]; cbn [enrich]; [now left|].
  destruct (String.eqb (name l) (location n)) eqn:E.
  - cbn [n_weather]. destruct (weather l) as [|w ws] eqn:Ew; cbn [nonempty].
    + now left.
    + right. exists l. apply String.eqb_eq in E.
      rewrite Ew. repeat split; auto; [now left | discriminate].
  - destruct IH as [IH | (loc & Hin & Hn & Hw & Hs)]; [now left|].
    right. exists loc. repeat split; auto. now right.
Qed.

Lemma enrich_waves_source locs n :
  n_waves (enrich locs n) = n_waves n
  \/ exists loc,
       In loc locs /\ name loc = location n /\ waves loc <> []
       /\ n_waves (enrich locs n) = Some (waves loc).
Proof.
  induction locs as [|l rest IH]; cbn [enrich]; [now left|].
  destruct (String.eqb (name l) (location n)) eqn:E.
  - cbn [n_waves]. destruct (waves l) as [|w ws] eqn:Ew; cbn [nonempty].
    + now left.
    + right. exists l. apply String.eqb_eq in E.
      rewrite Ew. repeat split; auto; [now left | discriminate].
  - destruct IH as [IH | (loc & Hin & Hn & Hw & Hs)]; [now left|].
    right. exists loc. repeat split; auto. now right.
Qed.

Lemma enrich_idem locs n : enrich locs (enrich locs n) = enrich locs n.
Proof.
  induction locs as [|l rest IH]; [reflexivity|].
  cbn [enrich]. destruct (String.eqb (name l) (location n)) eqn:E.
  - cbn [enrich location]. rewrite E. cbn [narrative n_weather n_waves].
    now destruct (nonempty (weather l)), (nonempty (waves l)).
  - rewrite enrich_location, E. exact IH.
Qed.

(** X15: the facts the assembler attaches to a narrative are never invented: a
    weather or wave list on an enriched record was on the record before or
    is the non-empty list of a dataset location with exactly the record's
    name; and enriching an enriched record changes nothing. *)
Theorem enrichment_is_sourced :
  forall (locs : list LocationRecord) (n : NarrativeRecord),
    enrich locs (enrich locs n) = enrich locs n
    /\ (n_weather (enrich locs n) = n_weather n
        \/ exists loc,
             In loc locs /\ name loc = location n /\ weather loc <> []
             /\ n_weather (enrich locs n) = Some (weather loc))
    /\ (n_waves (enrich locs n) = n_waves n
        \/ exists loc,
             In loc locs /\ name loc = location n /\ waves loc <> []
             /\ n_waves (enrich locs n) = Some (waves loc)).
Proof.
  intros locs n. split; [apply enrich_idem|].
  split; [apply enrich_weather_source | apply enrich_waves_source].
Qed.

Lemma create_response_json_texts ns m input_data maritime_data st err now :
  let e := create_response_json ns m input_data maritime_data st err now in
  locations_count e = List.length ns
  /\ List.length (narratives e) = List.length ns
  /\ map location (narratives e) = map location ns
  /\ map narrative (narratives e) = map narrative ns.
Proof.
  unfold create_response_json. cbn [locations_count narratives].
  destruct maritime_data as [md|]; [|now repeat split].
  destruct (nonempty ns); [|now repeat split].
  rewrite length_map, !map_map. repeat split.
  - apply map_ext. intros; apply enrich_location.
  - apply map_ext. intros; apply enrich_narrative.
Qed.

(** X16: whatever its arguments, the assembler neither drops, adds nor reorders
    narratives and never touches a location or a text; it counts them,
    passes model and status through, returns the narratives untouched when
    no dataset is given, and treats an empty error message as none. *)
Theorem assembler_keeps_narratives :
  forall (ns : list NarrativeRecord) (m : string) (input_data : json)
         (maritime_data : option MaritimeDataset) (st : string)
         (err : option string) (now : string),
    let e := create_response_json ns m input_data maritime_data st err now in
    model e = m /\ status e = st /\ timestamp e = now
    /\ locations_count e = List.length (narratives e)
    /\ List.length (narratives e) = List.length ns
    /\ map location (narratives e) = map location ns
    /\ map narrative (narratives e) = map narrative ns
    /\ narratives (create_response_json ns m input_data None st err now) = ns
    /\ create_response_json ns m input_data maritime_data st (Some "") now
       = create_response_json ns m input_data maritime_data st None now.
Proof.
  intros ns m input_data maritime_data st err now e.
  destruct (create_response_json_texts ns m input_data maritime_data st err
              now) as (Hc & Hl & Hloc & Hnar).
  fold e in Hc, Hl, Hloc, Hnar.
  repeat split; auto.
Qed.

(** ** The callers *)

Lemma primary_pass_told (R : NarrativeRecord -> Prop) text locs :
  (forall loc t, R (told loc t)) -> Forall R (primary_pass text locs).
Proof.
  intros HR. unfold primary_pass.
  assert (Hflush : forall st, Forall R (emitted st) -> Forall R (flush st)).
  { intros st He. unfold flush.
    destruct (current_location st) as [loc|]; [|exact He].
    destruct (truthy loc && nonempty (current_narrative st)); [|exact He].
    apply Forall_app. split; [exact He|].
    constructor; [apply HR | constructor]. }
  assert (H : forall lines st,
             Forall R (emitted st) ->
             Forall R (flush (fold_left (line_step locs) lines st))).
  { induction lines as [|raw rest IH]; intros st He; cbn [fold_left].
    - now apply Hflush.
    - apply IH. unfold line_step.
      destruct (truthy (strip raw)); cbn [negb]; auto.
      destruct (option_truthy (find_location (strip raw) locs));
        cbn [emitted]; [now apply Hflush|].
      destruct (option_truthy (current_location st)); auto. }
  apply H. constructor.
Qed.

(** The segmenter never attaches facts: its records carry a location and a
    text only. *)
Lemma segmenter_records_plain text locs :
  exists recs,
    parse_location_narratives text locs = Ok recs
    /\ Forall (fun r => n_weather r = None /\ n_waves r = None) recs.
Proof.
  eexists. split; [apply parse_location_narratives_returns|].
  destruct (runs_fallback text locs).
  - apply fallback_loop_Forall; [|constructor].
    intros j loc _. apply chunk_records_Forall. now split.
  - apply primary_pass_told. now split.
Qed.

Lemma segmenter_records_have_text text locs :
  exists recs,
    parse_location_narratives text locs = Ok recs
    /\ Forall (fun r => narrative r <> "") recs.
Proof.
  eexists. split; [apply parse_location_narratives_returns|].
  destruct (runs_fallback text locs).
  - apply fallback_loop_has_text. constructor.
  - apply primary_pass_has_text.
Qed.

Section CallerFacts.

Variable invoke_model : string -> nat -> string -> string -> outcome string.
Variable str_exn : exn -> string.
Variable now : string.

Lemma error_result_attached m message :
  message <> "" ->
  error_result now m message = mkEnvelope [] m now 0 "error" (Some message).
Proof.
  intros H. unfold error_result, create_response_json.
  cbn [option_truthy]. apply truthy_true in H. now rewrite H.
Qed.

Lemma api_message_not_empty e : ("Claude API call failed: " ++ e)%string <> "".
Proof. discriminate. Qed.

(** The shared body: it fails exactly when the model call fails, with the
    wrapped message, and otherwise assembles what the segmenter returns. *)
Lemma respond_cases with_dataset data prefix m max_tokens region :
  let ds := extract_maritime_data data in
  match invoke_model m max_tokens region (format_maritime_prompt ds prefix)
  with
  | Failed e =>
      respond invoke_model str_exn now with_dataset data prefix m max_tokens
        region
      = Failed ("Claude API call failed: " ++ e)
  | Done reply =>
      exists recs,
        parse_location_narratives reply (locations ds) = Ok recs
        /\ respond invoke_model str_exn now with_dataset data prefix m
             max_tokens region
           = Done (create_response_json recs m data
                     (if with_dataset then Some ds else None)
                     "success" None now)
  end.
Proof.
  intros ds. unfold respond, call_claude_api. fold ds.
  destruct (invoke_model m max_tokens region _) as [reply|e]; [|reflexivity].
  eexists. split; [apply parse_location_narratives_returns|].
  now rewrite parse_location_narratives_returns.
Qed.

(** X17: [/generate]: when the model call fails the endpoint raises status 500
    with the error envelope, empty and carrying the wrapped message; when
    it succeeds the endpoint returns a success envelope without an error,
    whose count is the number of narratives and whose narratives are each
    for a location of the extracted dataset and have a text. *)
Theorem generate_narrative_outcome :
  forall (data : json) (prefix m : string) (max_tokens : nat)
         (region : string),
    let ds := extract_maritime_data data in
    match invoke_model m max_tokens region (format_maritime_prompt ds prefix)
    with
    | Failed e =>
        generate_narrative invoke_model str_exn now data prefix m max_tokens
          region
        = HTTPException 500
            (mkEnvelope [] m now 0 "error"
               (Some ("Claude API call failed: " ++ e)%string))
    | Done reply =>
        exists body,
          generate_narrative invoke_model str_exn now data prefix m
            max_tokens region
          = Returned body
          /\ status body = "success" /\ error body = None /\ model body = m
          /\ locations_count body = List.length (narratives body)
          /\ Forall (fun r => In (location r) (map name (locations ds))
                              /\ narrative r <> "")
               (narratives body)
    end.
Proof.
  intros data prefix m max_tokens region ds.
  pose proof (respond_cases true data prefix m max_tokens region) as H.
  cbv zeta in H. fold ds in H. unfold generate_narrative.
  destruct (invoke_model m max_tokens region _) as [reply|e].
  - destruct H as (recs & Hparse & ->).
    eexists. split; [reflexivity|].
    repeat split.
    destruct (segment_locations_known reply (locations ds))
      as (recs1 & Hp1 & Hloc & _).
    destruct (segmenter_records_have_text reply (locations ds))
      as (recs2 & Hp2 & Htext).
    rewrite Hparse in Hp1, Hp2.
    injection Hp1 as <-. injection Hp2 as <-.
    assert (Hboth : Forall (fun r => In (location r) (map name (locations ds))
                                     /\ narrative r <> "") recs).
    { apply Forall_forall. intros r Hr.
      rewrite Forall_forall in Hloc, Htext. auto. }
    unfold create_response_json. cbn [narratives].
    destruct (nonempty recs); [|exact Hboth].
    apply Forall_map. eapply Forall_impl; [|exact Hboth].
    intros r [Hl Ht]. now rewrite enrich_location, enrich_narrative.
  - rewrite H. now rewrite error_result_attached by apply api_message_not_empty.
Qed.

(** X18: [/generate-from-url]: a failed fetch raises status 400 with the message
    naming the URL, a failed model call raises status 500, and a returned
    body never carries weather or wave lists on its narratives, because this
    endpoint hands no dataset to the assembler. *)
Theorem generate_narrative_from_url_outcome :
  forall (url : string) (response : fetched) (prefix m : string)
         (max_tokens : nat) (region : string),
    match response with
    | RequestException e =>
        generate_narrative_from_url invoke_model str_exn now url response
          prefix m max_tokens region
        = HTTPException 400
            (mkEnvelope [] m now 0 "error"
               (Some ("Failed to fetch from URL " ++ url ++ ": " ++ e)%string))
    | OtherException e =>
        generate_narrative_from_url invoke_model str_exn now url response
          prefix m max_tokens region
        = HTTPException 500
            (mkEnvelope [] m now 0 "error"
               (if truthy e then Some e else None))
    | Fetched json_data =>
        match invoke_model m max_tokens region
                (format_maritime_prompt (extract_maritime_data json_data)
                   prefix) with
        | Failed e =>
            generate_narrative_from_url invoke_model str_exn now url response
              prefix m max_tokens region
            = HTTPException 500
                (mkEnvelope [] m now 0 "error"
                   (Some ("Claude API call failed: " ++ e)%string))
        | Done reply =>
            exists body,
              generate_narrative_from_url invoke_model str_exn now url
                response prefix m max_tokens region
              = Returned body
              /\ status body = "success" /\ error body = None
              /\ parse_location_narratives reply
                   (locations (extract_maritime_data json_data))
                 = Ok (narratives body)
              /\ Forall (fun r => n_weather r = None /\ n_waves r = None)
                   (narratives body)
        end
    end.
Proof.
  intros url response prefix m max_tokens region.
  destruct response as [json_data|e|e]; cbn [generate_narrative_from_url].
  - pose proof (respond_cases false json_data prefix m max_tokens region) as H.
    cbv zeta in H.
    destruct (invoke_model m max_tokens region _) as [reply|e].
    + destruct H as (recs & Hparse & ->).
      eexists. split; [reflexivity|]. repeat split.
      * exact Hparse.
      * destruct (segmenter_records_plain reply
                    (locations (extract_maritime_data json_data)))
          as (recs1 & Hp1 & Hplain).
        rewrite Hparse in Hp1. injection Hp1 as <-. exact Hplain.
    + rewrite H.
      now rewrite error_result_attached by apply api_message_not_empty.
  - rewrite error_result_attached; [reflexivity|].
    discriminate.
  - unfold error_result, create_response_json. cbn [option_truthy].
    now destruct (truthy e).
Qed.

(** X19: [main] always ends with an envelope: a success without an error,
    or an error without narratives; a failed input parse gives the error
    envelope.  For a parsed document that is a mapping, the only documents
    the [/generate] endpoint receives, [main] and the endpoint run the same
    steps: the envelope [main] prints is the body the endpoint returns or
    the detail of the exception it raises with status 500. *)
Theorem main_result_envelope :
  forall (parsed : outcome json) (prefix m : string) (max_tokens : nat)
         (region : string),
    let e := main_result invoke_model str_exn now parsed prefix m max_tokens
               region in
    model e = m /\ timestamp e = now
    /\ locations_count e = List.length (narratives e)
    /\ (status e = "success" /\ error e = None
        \/ status e = "error" /\ narratives e = [])
    /\ match parsed with
       | Failed message =>
           status e = "error"
           /\ error e = (if truthy message then Some message else None)
       | Done (JDict d) =>
           generate_narrative invoke_model str_exn now (JDict d) prefix m
             max_tokens region
           = Returned e
           \/ generate_narrative invoke_model str_exn now (JDict d) prefix m
                max_tokens region
              = HTTPException 500 e
       | Done _ => True
       end.
Proof.
  intros parsed prefix m max_tokens region e. unfold e, main_result.
  destruct parsed as [data|message].
  - assert (Hd : generate_narrative invoke_model str_exn now data prefix m
                   max_tokens region
                 = Returned
                     (main_result invoke_model str_exn now (Done data) prefix
                        m max_tokens region)
                 \/ generate_narrative invoke_model str_exn now data prefix m
                      max_tokens region
                    = HTTPException 500
                        (main_result invoke_model str_exn now (Done data)
                           prefix m max_tokens region)).
    { unfold generate_narrative, main_result.
      destruct (respond invoke_model str_exn now true data prefix m
                  max_tokens region); auto. }
    unfold main_result in Hd.
    pose proof (respond_cases true data prefix m max_tokens region) as H.
    cbv zeta in H.
    destruct (invoke_model m max_tokens region _) as [reply|x].
    + destruct H as (recs & _ & H). rewrite H in *.
      repeat split; auto. destruct data; auto.
    + rewrite H in *. repeat split; auto. destruct data; auto.
  - repeat split; auto.
Qed.

End CallerFacts.

(** ** Documents on which the classifier is exact *)

Lemma finish_node_own d locs :
  finish_node (own_facts d) locs
  = if nonempty (own_record d) then (FreshEmpty, locs ++ own_record d)
    else (SharedLocations, locs).
Proof.
  unfold finish_node, own_record.
  destruct (location_name (own_facts d)) as [n|]; [|reflexivity].
  now destruct (truthy n && _).
Qed.

Lemma extract_location_data_exact :
  forall obj,
    (every_node_qualifies obj = true ->
     forall parent_key locs,
       extract_location_data obj parent_key locs
       = (FreshEmpty, locs ++ qualifying_records obj))
    /\ match obj with
       | JList items =>
           forallb every_node_qualifies items = true ->
           forall item_key i locs,
             enumerate_loop item_key items i locs
             = locs ++ flat_map qualifying_records items
       | _ => True
       end.
Proof.
  induction obj as [| | | |items IH|d IH] using json_nested_ind;
    try (split; [discriminate | exact I]).
  - split; [discriminate|].
    induction IH as [|item more [Hitem _] _ IHm]; intros Hall item_key i locs.
    + cbn. now rewrite app_nil_r.
    + cbn [forallb] in Hall. apply andb_prop in Hall as [Hi Hm].
      cbn [enumerate_loop flat_map]. rewrite (Hitem Hi).
      cbn [extend_with]. rewrite (IHm Hm). now rewrite app_assoc.
  - split; [|exact I].
    intros Hq parent_key locs. cbn [every_node_qualifies] in Hq.
    apply andb_prop in Hq as [Hown Hall].
    rewrite extract_location_data_dict. cbn [qualifying_records].
    set (children := fun kv : string * json =>
                       match snd kv with
                       | JDict _ =>
                           if fact_key (fst kv) then []
                           else qualifying_records (snd kv)
                       | JList items => flat_map qualifying_records items
                       | _ => []
                       end).
    assert (Hl : forall nd locs,
               items_loop parent_key d nd locs
               = (fold_left (fun nd kv => own_step (fst kv) (snd kv) nd) d nd,
                  locs ++ flat_map children d)).
    { clear locs Hown.
      induction IH as [|[key value] rest [Hv Hitems] _ IHr]; intros nd locs.
      - cbn. now rewrite app_nil_r.
      - cbn [forallb fst snd] in Hall, Hv, Hitems.
        apply andb_prop in Hall as [Hkv Hrest].
        cbn [items_loop fold_left flat_map fst snd].
        assert (Hs : items_step parent_key key value nd locs
                     = (own_step key value nd, locs ++ children (key, value))).
        { unfold children. cbn [fst snd].
          destruct value; cbn [items_step own_step];
            try (now rewrite app_nil_r).
          - now destruct (truthy (strip s)); rewrite app_nil_r.
          - now rewrite (Hitems Hkv).
          - unfold fact_key in *.
            destruct (any_keyword WEATHER_KEYWORDS (lower key));
              [now rewrite app_nil_r|].
            destruct (any_keyword WAVE_KEYWORDS (lower key));
              [now rewrite app_nil_r|].
            cbn [orb] in Hkv. now rewrite (Hv Hkv). }
        rewrite Hs, (IHr Hrest). now rewrite app_assoc. }
    rewrite Hl. fold (own_facts d).
    rewrite finish_node_own, Hown. now rewrite app_assoc.
Qed.

(** X3: on a document in which every visited node is a qualifying mapping (a
    qualifying mapping, or a top-level sequence of them) the primary
    classifier is exact: it returns one record per qualifying node, in
    depth-first order, without repetition. *)
Theorem classifier_exact_when_every_node_qualifies :
  forall (data : json),
    match data with
    | JList items => forallb every_node_qualifies items
    | _ => every_node_qualifies data
    end = true ->
    primary_locations data = qualifying_records data
    /\ extract_maritime_data data = mkDataset (qualifying_records data).
Proof.
  intros data H.
  assert (Hp : primary_locations data = qualifying_records data).
  { unfold primary_locations.
    destruct (extract_location_data_exact data) as [Hd Hl].
    destruct data; try discriminate.
    - rewrite extract_location_data_list. cbn [snd]. now rewrite (Hl H).
    - now rewrite (Hd H). }
  split; [exact Hp|].
  unfold extract_maritime_data. rewrite Hp.
  destruct (qualifying_records data) as [|r rs] eqn:E; [|reflexivity].
  cbn [nonempty negb app].
  destruct data; try discriminate.
  - destruct items as [|item more]; [reflexivity|].
    cbn [forallb] in H. apply andb_prop in H as [Hi _].
    destruct item; try discriminate.
    cbn [every_node_qualifies] in Hi. apply andb_prop in Hi as [Hown _].
    cbn [qualifying_records flat_map] in E.
    destruct (own_record pairs); [discriminate|].
    apply app_eq_nil in E as [E _]. apply app_eq_nil in E as [_ E].
    discriminate.
  - cbn [every_node_qualifies] in H. apply andb_prop in H as [Hown _].
    cbn [qualifying_records] in E.
    destruct (own_record pairs); [discriminate|].
    apply app_eq_nil in E as [_ E]. discriminate.
Qed.

Lemma classifier_exact_when_every_node_qualifies_witness :
  primary_locations two_locations_doc = qualifying_records two_locations_doc
  /\ extract_maritime_data two_locations_doc
     = mkDataset (qualifying_records two_locations_doc).
Proof.
  apply (classifier_exact_when_every_node_qualifies two_locations_doc).
  reflexivity.
Defined.
